(** * hpp-model-urdf: a shallow embedding of src/urdf/parser.cc

    Scalars are real numbers ([R]); the C++ code works on doubles.  The
    [std::map]s of the code are association lists kept sorted by key, the
    way [std::map] iterates.  Undefined behaviour of the C++ code (a
    dereferenced null pointer or [end ()] iterator) is the [Fault] outcome
    of the [outcome] monad below, an escaping C++ exception is [Throw], and
    unbounded recursion is modelled with fuel ([NoFuel]). *)

From Stdlib Require Import Reals Psatz String List Bool.
Import ListNotations.

Open Scope R_scope.
Open Scope string_scope.

(** ** Linear algebra: [vector3d], [matrix3d], [CkitMat4] *)

Record V3 := mkV3 { vx : R; vy : R; vz : R }.

Definition v3get (v : V3) (i : nat) : R :=
  match i with 0%nat => vx v | 1%nat => vy v | _ => vz v end.

(** [vector3d::operator^]: the cross product. *)
Definition cross (a b : V3) : V3 :=
  mkV3 (vy a * vz b - vz a * vy b)
       (vz a * vx b - vx a * vz b)
       (vx a * vy b - vy a * vx b).

Definition dot (a b : V3) : R := vx a * vx b + vy a * vy b + vz a * vz b.

Definition norm2 (a : V3) : R := dot a a.

(** [vector3d::normalize]: divide by the Euclidean norm. *)
Definition normalize (a : V3) : V3 :=
  let n := sqrt (norm2 a) in mkV3 (vx a / n) (vy a / n) (vz a / n).

(** A unit vector of the standard basis: [y[i] = 1.] on a zero vector. *)
Definition basis (i : nat) : V3 :=
  match i with
  | 0%nat => mkV3 1 0 0
  | 1%nat => mkV3 0 1 0
  | _ => mkV3 0 0 1
  end.

Record M3 := mkM3 {
  a00 : R; a01 : R; a02 : R;
  a10 : R; a11 : R; a12 : R;
  a20 : R; a21 : R; a22 : R }.

Definition m3get (m : M3) (i j : nat) : R :=
  match i, j with
  | 0, 0 => a00 m | 0, 1 => a01 m | 0, _ => a02 m
  | 1, 0 => a10 m | 1, 1 => a11 m | 1, _ => a12 m
  | _, 0 => a20 m | _, 1 => a21 m | _, _ => a22 m
  end%nat.

Definition m3_of (f : nat -> nat -> R) : M3 :=
  (mkM3 (f 0 0) (f 0 1) (f 0 2)
        (f 1 0) (f 1 1) (f 1 2)
        (f 2 0) (f 2 1) (f 2 2))%nat.
Arguments m3_of f /.

Definition m3mul (a b : M3) : M3 :=
  m3_of (fun i j => m3get a i 0 * m3get b 0 j + m3get a i 1 * m3get b 1 j
                    + m3get a i 2 * m3get b 2 j).

Definition m3id : M3 := mkM3 1 0 0 0 1 0 0 0 1.

Definition m3transpose (m : M3) : M3 := m3_of (fun i j => m3get m j i).

Definition det3 (m : M3) : R :=
  a00 m * (a11 m * a22 m - a12 m * a21 m)
  - a01 m * (a10 m * a22 m - a12 m * a20 m)
  + a02 m * (a10 m * a21 m - a11 m * a20 m).

(** The inverse of a 3x3 block: adjugate divided by the determinant. *)
Definition inv3 (m : M3) : M3 :=
  let d := det3 m in
  mkM3 ((a11 m * a22 m - a12 m * a21 m) / d)
       ((a02 m * a21 m - a01 m * a22 m) / d)
       ((a01 m * a12 m - a02 m * a11 m) / d)
       ((a12 m * a20 m - a10 m * a22 m) / d)
       ((a00 m * a22 m - a02 m * a20 m) / d)
       ((a02 m * a10 m - a00 m * a12 m) / d)
       ((a10 m * a21 m - a11 m * a20 m) / d)
       ((a01 m * a20 m - a00 m * a21 m) / d)
       ((a00 m * a11 m - a01 m * a10 m) / d).

Definition m3sub (a b : M3) : M3 := m3_of (fun i j => m3get a i j - m3get b i j).

Definition m3scale (c : R) (a : M3) : M3 := m3_of (fun i j => c * m3get a i j).

Definition m3col (m : M3) (j : nat) : V3 :=
  mkV3 (m3get m 0 j) (m3get m 1 j) (m3get m 2 j).

(** [CkitMat4]: a 4x4 homogeneous matrix. *)
Record M4 := mkM4 {
  b00 : R; b01 : R; b02 : R; b03 : R;
  b10 : R; b11 : R; b12 : R; b13 : R;
  b20 : R; b21 : R; b22 : R; b23 : R;
  b30 : R; b31 : R; b32 : R; b33 : R }.

Definition m4get (m : M4) (i j : nat) : R :=
  match i, j with
  | 0, 0 => b00 m | 0, 1 => b01 m | 0, 2 => b02 m | 0, _ => b03 m
  | 1, 0 => b10 m | 1, 1 => b11 m | 1, 2 => b12 m | 1, _ => b13 m
  | 2, 0 => b20 m | 2, 1 => b21 m | 2, 2 => b22 m | 2, _ => b23 m
  | _, 0 => b30 m | _, 1 => b31 m | _, 2 => b32 m | _, _ => b33 m
  end%nat.

Definition m4_of (f : nat -> nat -> R) : M4 :=
  (mkM4 (f 0 0) (f 0 1) (f 0 2) (f 0 3)
        (f 1 0) (f 1 1) (f 1 2) (f 1 3)
        (f 2 0) (f 2 1) (f 2 2) (f 2 3)
        (f 3 0) (f 3 1) (f 3 2) (f 3 3))%nat.
Arguments m4_of f /.

Definition m4mul (a b : M4) : M4 :=
  m4_of (fun i j => m4get a i 0 * m4get b 0 j + m4get a i 1 * m4get b 1 j
                    + m4get a i 2 * m4get b 2 j + m4get a i 3 * m4get b 3 j).

Infix "**" := m4mul (at level 40, left associativity).

(** [CkitMat4::identity ()]. *)
Definition m4id : M4 := mkM4 1 0 0 0 0 1 0 0 0 0 1 0 0 0 0 1.

(** The rotation block and the translation column of a [CkitMat4]. *)
Definition rot3 (m : M4) : M3 := m3_of (fun i j => m4get m i j).
Definition trans3 (m : M4) : V3 := mkV3 (b03 m) (b13 m) (b23 m).

(** A homogeneous matrix from a 3x3 block and a translation. *)
Definition homogeneous (r : M3) (t : V3) : M4 :=
  m4_of (fun i j =>
    match i, j with
    | 3%nat, 3%nat => 1 | 3%nat, _ => 0
    | _, 3%nat => v3get t i
    | _, _ => m3get r i j
    end).

(** [CkitMat4::inverse ()] of a homogeneous transform (Kineo, not in this
    repository): [(R, t)^-1 = (R^-1, - R^-1 t)]. *)
Definition m4inverse (m : M4) : M4 :=
  let ri := inv3 (rot3 m) in
  let t := trans3 m in
  homogeneous ri
    (mkV3 (- (a00 ri * vx t + a01 ri * vy t + a02 ri * vz t))
          (- (a10 ri * vx t + a11 ri * vy t + a12 ri * vz t))
          (- (a20 ri * vx t + a21 ri * vy t + a22 ri * vz t))).

(** ** [urdf::Pose] and [Parser::poseToMatrix] *)

Record Quat := mkQuat { qx : R; qy : R; qz : R; qw : R }.
Record Pose := mkPose { position : V3; rotation : Quat }.

(** [btMatrix3x3 (q)]: Bullet's [setRotation]. *)
Definition btMatrix3x3 (q : Quat) : M3 :=
  let d := qx q * qx q + qy q * qy q + qz q * qz q + qw q * qw q in
  let s := 2 / d in
  let xs := qx q * s in let ys := qy q * s in let zs := qz q * s in
  let wx := qw q * xs in let wy := qw q * ys in let wz := qw q * zs in
  let xx := qx q * xs in let xy := qx q * ys in let xz := qx q * zs in
  let yy := qy q * ys in let yz := qy q * zs in let zz := qz q * zs in
  mkM3 (1 - (yy + zz)) (xy - wz) (xz + wy)
       (xy + wz) (1 - (xx + zz)) (yz - wx)
       (xz - wy) (yz + wx) (1 - (xx + yy)).

Definition poseToMatrix (p : Pose) : M4 :=
  homogeneous (btMatrix3x3 (rotation p)) (position p).

(** ** Frame normalizer: [normalizeFrameOrientation] *)

(** The index of the smallest-magnitude component, first one on ties:
    [if (fabs (x[i]) < fabs (x[smallestComponent])) smallestComponent = i]
    for [i = 0, 1, 2]. *)
Definition smallestComponent (x : V3) : nat :=
  let step s i := if Rlt_dec (Rabs (v3get x i)) (Rabs (v3get x s)) then i else s in
  step (step (step 0%nat 0%nat) 1%nat) 2%nat.

(** The 3x3 block built by the function: columns [x], [y], [z]. *)
Definition frameBasis (axis : V3) : M3 :=
  let x := normalize axis in
  let y0 := basis (smallestComponent x) in
  let z := cross x y0 in
  let y := cross z x in
  mkM3 (vx x) (vx y) (vx z)
       (vy x) (vy y) (vy z)
       (vz x) (vz y) (vz z).

(** The function takes a (possibly null) joint pointer and returns a
    [CkitMat4] equal to the identity outside its 3x3 block. *)
Definition normalizeFrameOrientation (axis : option V3) : M4 :=
  match axis with
  | None => m4id
  | Some a => homogeneous (frameBasis a) (mkV3 0 0 0)
  end.

(** ** Inertia re-expression (in [Parser::addBodiesToJoints])

    [inertiaMatrixTransform] is the identity with its 3x3 block replaced by
    the inertia tensor, then
    [normalizedJointTransform.inverse () * inertiaMatrixTransform
       * normalizedJointTransform], and the 3x3 block is read back. *)
Definition reexpressInertia (normalizedJointTransform : M4) (inertia : M3) : M3 :=
  rot3 (m4inverse normalizedJointTransform
        ** homogeneous inertia (mkV3 0 0 0) ** normalizedJointTransform).

(** [localComTransform = normalizedJointTransform.inverse () * localComTransform]
    and the translation column is read back. *)
Definition reexpressCom (normalizedJointTransform : M4) (com : V3) : V3 :=
  trans3 (m4inverse normalizedJointTransform ** homogeneous m3id com).

Definition symmetric3 (m : M3) : Prop :=
  a01 m = a10 m /\ a02 m = a20 m /\ a12 m = a21 m.

Definition orthonormal3 (r : M3) : Prop := m3mul (m3transpose r) r = m3id.

(** The characteristic polynomial [det (M - l Id)] at [l]. *)
Definition charpoly3 (m : M3) (l : R) : R := det3 (m3sub m (m3scale l m3id)).

Definition is_eigenvalue (m : M3) (l : R) : Prop := charpoly3 m l = 0.

(** ** The outcome monad

    [Ret]: normal return; [Throw]: an escaping [std::runtime_error];
    [Fault]: undefined behaviour (null or [end ()] dereference);
    [NoFuel]: the recursion did not finish within the fuel given. *)
Inductive outcome (A : Type) : Type :=
| Ret (a : A)
| Throw (msg : string)
| Fault (msg : string)
| NoFuel.
Arguments Ret {A} a.
Arguments Throw {A} msg.
Arguments Fault {A} msg.
Arguments NoFuel {A}.

Definition obind {A B : Type} (m : outcome A) (k : A -> outcome B) : outcome B :=
  match m with
  | Ret a => k a
  | Throw s => Throw s
  | Fault s => Fault s
  | NoFuel => NoFuel
  end.

Notation "x <- m ;; k" := (obind m (fun x => k))
  (at level 61, m at next level, right associativity).

(** ** The input graph ([urdf::Model], decoded by an external library) *)

Inductive JointType := UNKNOWN | REVOLUTE | CONTINUOUS | PRISMATIC | FLOATING | PLANAR | FIXED.

Definition JointType_eqb (a b : JointType) : bool :=
  match a, b with
  | UNKNOWN, UNKNOWN | REVOLUTE, REVOLUTE | CONTINUOUS, CONTINUOUS
  | PRISMATIC, PRISMATIC | FLOATING, FLOATING | PLANAR, PLANAR
  | FIXED, FIXED => true
  | _, _ => false
  end.

Record JointLimits := mkLimits {
  lim_lower : R; lim_upper : R; lim_effort : R; lim_velocity : R }.

Record UrdfJoint := mkJoint {
  j_name : string;
  j_type : JointType;
  j_axis : V3;
  j_origin : Pose;                   (* parent_to_joint_origin_transform *)
  j_parent_link : string;            (* parent_link_name *)
  j_child_link : string;             (* child_link_name *)
  j_limits : option JointLimits }.

Record Inertial := mkInertial {
  in_origin : Pose; in_mass : R;
  ixx : R; ixy : R; ixz : R; iyy : R; iyz : R; izz : R }.

Inductive Geometry :=
| Sphere (radius : R)
| Box (dim : V3)
| Cylinder (radius length : R)
| Mesh (filename : string) (scale : V3).

(** [urdf::Visual] and [urdf::Collision]: an origin and a geometry. *)
Record Shape := mkShape { sh_origin : Pose; sh_geometry : Geometry }.

(** [parent_joint] and [child_joints] are pointers into the model's joint
    map; they are kept here as joint names. *)
Record UrdfLink := mkLink {
  l_name : string;
  l_inertial : option Inertial;
  l_visual : option Shape;
  l_collision : option Shape;
  l_parent_joint : option string;
  l_child_joints : list string }.

(** [std::map] lookup on an association list. *)
Fixpoint lookup {A : Type} (k : string) (l : list (string * A)) : option A :=
  match l with
  | [] => None
  | (k', v) :: l' => if String.eqb k k' then Some v else lookup k l'
  end.

Record UrdfModel := mkModel {
  links_ : list (string * UrdfLink);
  joints_ : list (string * UrdfJoint);
  root_link : option string }.

Definition getJoint (m : UrdfModel) (name : string) : option UrdfJoint :=
  lookup name (joints_ m).

Definition getLink (m : UrdfModel) (name : string) : option UrdfLink :=
  lookup name (links_ m).

Definition getRoot (m : UrdfModel) : option UrdfLink :=
  match root_link m with Some n => getLink m n | None => None end.

(** ** Pose resolver: [Parser::getPoseInReferenceFrame] *)
Fixpoint getPoseInReferenceFrame (fuel : nat) (m : UrdfModel)
  (referenceJointName currentJointName : string) : outcome M4 :=
  match fuel with
  | O => NoFuel
  | S fuel' =>
    if String.eqb referenceJointName currentJointName then
      match getJoint m currentJointName with
      | Some j => Ret (poseToMatrix (j_origin j))
      | None => Fault "getJoint (currentJointName) is null"
      end
    else
      match getJoint m currentJointName with
      | None => Ret m4id
      | Some joint =>
        let transform := poseToMatrix (j_origin joint) in
        match getLink m (j_parent_link joint) with
        | None => Ret transform
        | Some parentLink =>
          match l_parent_joint parentLink with
          | None => Ret transform
          | Some parentJoint =>
            p <- getPoseInReferenceFrame fuel' m referenceJointName parentJoint ;;
            Ret (p ** transform)
          end
        end
      end
  end.

(** ** A three-joint chain [L0 -A-> L1 -B-> L2 -C-> L3] *)

(** A pure translation along [x] with the identity quaternion. *)
Definition shiftX (d : R) : Pose := mkPose (mkV3 d 0 0) (mkQuat 0 0 0 1).

Definition chainJoint (name parent child : string) : UrdfJoint :=
  mkJoint name FIXED (mkV3 1 0 0) (shiftX 1) parent child None.

Definition plainLink (name : string) (parent : option string) (children : list string)
  : UrdfLink := mkLink name None None None parent children.

Definition chainModel : UrdfModel :=
  mkModel
    [("L0", plainLink "L0" None ["A"]); ("L1", plainLink "L1" (Some "A") ["B"]);
     ("L2", plainLink "L2" (Some "B") ["C"]); ("L3", plainLink "L3" (Some "C") [])]
    [("A", chainJoint "A" "L0" "L1"); ("B", chainJoint "B" "L1" "L2");
     ("C", chainJoint "C" "L2" "L3")]
    (Some "L0").

(** ** Parser state *)

(** [jointsMap_[k] = v] on a [std::map]: keys stay sorted, an existing key
    is overwritten. *)
Fixpoint map_insert {A : Type} (k : string) (v : A) (l : list (string * A))
  : list (string * A) :=
  match l with
  | [] => [(k, v)]
  | (k', v') :: l' =>
    match String.compare k k' with
    | Lt => (k, v) :: l
    | Eq => (k, v) :: l'
    | Gt => (k', v') :: map_insert k v l'
    end
  end.

Inductive NodeKind := FreeflyerNode | RotationNode | TranslationNode | AnchorNode.

(** The bound-setting calls the parser makes on a joint node, in order;
    [Unbounded i] is [lowerBound (i, -inf)] followed by [upperBound (i, +inf)]. *)
Inductive BoundSetting :=
| IsBounded (dof : nat) (b : bool)
| Bounds (dof : nat) (lower upper : R)
| VelocityBounds (dof : nat) (lower upper : R)
| TorqueBounds (dof : nat) (lower upper : R)
| Unbounded (dof : nat).

(** A joint node ([hpp::model::Joint]).  Nodes are created once, under their
    name, so the name identifies the node (the C++ code compares pointers). *)
Record Node := mkNode {
  n_name : string;
  n_kind : NodeKind;
  n_pose : M4;
  n_settings : list BoundSetting }.

Record Body := mkBody { bd_mass : R; bd_com : V3; bd_inertia : M3 }.

(** Solid components attached to a joint; the segment's end points come from
    the external capsule object and are not modelled. *)
Inductive Solid :=
| SPolyhedron (name filename : string) (scale : V3) (pos : M4)
| SCylinder (name : string) (radius length : R) (pos : M4)
| SBox (name : string) (x y z : R) (pos : M4)
| SCapsule (name : string) (length radius : R) (pos : M4)
| SSegment (name : string) (radius : R) (pos : M4).

Record Hand := mkHand {
  hd_wrist : string; hd_center : V3; hd_thumb : V3; hd_foreFinger : V3; hd_palm : V3 }.

Record Foot := mkFoot { ft_ankle : string; ft_anklePosition : V3 }.

(** The [HumanoidRobot] being built. *)
Record Robot := mkRobot {
  rb_root : option string;
  rb_roles : list (string * string);   (* waist, chest, wrists, ankles, gaze *)
  rb_actuated : list string;
  rb_gaze : option (V3 * V3);
  rb_hands : list (string * Hand);
  rb_feet : list (string * Foot);
  rb_steering : bool }.

Definition emptyRobot : Robot := mkRobot None [] [] None [] [] false.

Record PState := mkPState {
  jointsMap : list (string * Node);
  rootJoint : option string;
  childEdges : list (string * string);  (* addChildJoint (parent, child) *)
  bodies : list (string * Body);        (* setLinkedBody *)
  solids : list (string * Solid);       (* addSolidComponentRef *)
  bodyNames : list (string * string);
  specialNames : list (string * string); (* waistJointName_, ... *)
  robot : option Robot }.

(** A freshly constructed [Parser]: every special joint name is empty. *)
Definition initialPState : PState := mkPState [] None [] [] [] [] [] None.

(** ** The parser monad: state passing over [outcome] *)
Definition PM (A : Type) : Type := PState -> outcome (A * PState).

Definition pret {A : Type} (a : A) : PM A := fun st => Ret (a, st).
Definition pbind {A B : Type} (m : PM A) (k : A -> PM B) : PM B :=
  fun st => obind (m st) (fun '(a, st') => k a st').
Definition pget : PM PState := fun st => Ret (st, st).
Definition pput (st : PState) : PM unit := fun _ => Ret (tt, st).
Definition plift {A : Type} (o : outcome A) : PM A :=
  fun st => obind o (fun a => Ret (a, st)).
Definition pfault {A : Type} (msg : string) : PM A := fun _ => Fault msg.
Definition pthrow {A : Type} (msg : string) : PM A := fun _ => Throw msg.

Notation "x <~ m ;; k" := (pbind m (fun x => k))
  (at level 61, m at next level, right associativity).
Notation "m ;;; k" := (pbind m (fun _ => k)) (at level 61, right associativity).

Definition setJointsMap (r : list (string * Node)) (st : PState) : PState :=
  mkPState r (rootJoint st) (childEdges st) (bodies st) (solids st)
           (bodyNames st) (specialNames st) (robot st).

Definition registerJoint (name : string) (n : Node) : PM unit :=
  fun st => Ret (tt, setJointsMap (map_insert name n (jointsMap st)) st).

(** [jointsMap_.find (name) != jointsMap_.end ()] *)
Definition isRegistered (name : string) (st : PState) : bool :=
  match lookup name (jointsMap st) with Some _ => true | None => false end.

(** ** Joint factory *)

Definition createFreeflyerJoint (name : string) (mat : M4) : PM (option Node) :=
  st <~ pget ;;
  if isRegistered name st then pret None
  else
    let joint := mkNode name FreeflyerNode mat (map (fun i => IsBounded i false) (seq 0 6)) in
    registerJoint name joint ;;; pret (Some joint).

(** [if (limits) { isBounded (0, true); bounds (0, lower, upper);
    velocityBounds (0, -velocity, velocity); torqueBounds (0, -effort, effort); }] *)
Definition limitSettings (limits : option JointLimits) : list BoundSetting :=
  match limits with
  | Some l =>
    [IsBounded 0 true; Bounds 0 (lim_lower l) (lim_upper l);
     VelocityBounds 0 (- lim_velocity l) (lim_velocity l);
     TorqueBounds 0 (- lim_effort l) (lim_effort l)]
  | None => []
  end.

Definition createRotationJoint (name : string) (mat : M4) (limits : option JointLimits)
  : PM (option Node) :=
  st <~ pget ;;
  if isRegistered name st then pret None
  else
    let joint := mkNode name RotationNode mat (limitSettings limits) in
    registerJoint name joint ;;; pret (Some joint).

Definition createContinuousJoint (name : string) (mat : M4) : PM (option Node) :=
  st <~ pget ;;
  if isRegistered name st then pret None
  else
    let joint := mkNode name RotationNode mat [IsBounded 0 false] in
    registerJoint name joint ;;; pret (Some joint).

Definition createTranslationJoint (name : string) (mat : M4) (limits : option JointLimits)
  : PM (option Node) :=
  st <~ pget ;;
  if isRegistered name st then pret None
  else
    let joint := mkNode name TranslationNode mat (limitSettings limits) in
    registerJoint name joint ;;; pret (Some joint).

Definition createAnchorJoint (name : string) (mat : M4) : PM (option Node) :=
  st <~ pget ;;
  if isRegistered name st then pret None
  else
    let joint := mkNode name AnchorNode mat [] in
    registerJoint name joint ;;; pret (Some joint).

Definition findJoint (jointName : string) (st : PState) : option Node :=
  lookup jointName (jointsMap st).

(** ** [Parser::parseJoints] *)

Definition isActuatedType (t : JointType) : bool :=
  match t with REVOLUTE | CONTINUOUS | PRISMATIC => true | _ => false end.

Definition setRobot (f : Robot -> Robot) (st : PState) : PState :=
  mkPState (jointsMap st) (rootJoint st) (childEdges st) (bodies st) (solids st)
           (bodyNames st) (specialNames st)
           (match robot st with Some r => Some (f r) | None => None end).

Definition setRootJoint (name : string) (st : PState) : PState :=
  mkPState (jointsMap st) (Some name) (childEdges st) (bodies st) (solids st)
           (bodyNames st) (specialNames st) (robot st).

Definition withRoot (name : string) (r : Robot) : Robot :=
  mkRobot (Some name) (rb_roles r) (rb_actuated r) (rb_gaze r) (rb_hands r)
          (rb_feet r) (rb_steering r).

(** The loop over [model_.joints_]; the return values of the [create*]
    calls are not inspected. *)
Fixpoint parseJointsLoop (fuel : nat) (m : UrdfModel) (l : list (string * UrdfJoint))
  : PM bool :=
  match l with
  | [] => pret true
  | (name, second) :: l' =>
    position <~ plift (getPoseInReferenceFrame fuel m "base_footprint_joint" name) ;;
    match getJoint m name with
    | None => pfault "joint->type on a null joint"
    | Some joint =>
      let position :=
        if isActuatedType (j_type joint)
        then position ** normalizeFrameOrientation (Some (j_axis joint))
        else position in
      match j_type second with
      | UNKNOWN => pret false
      | REVOLUTE =>
        createRotationJoint name position (j_limits second) ;;; parseJointsLoop fuel m l'
      | CONTINUOUS =>
        createContinuousJoint name position ;;; parseJointsLoop fuel m l'
      | PRISMATIC =>
        createTranslationJoint name position (j_limits second) ;;; parseJointsLoop fuel m l'
      | FLOATING =>
        createFreeflyerJoint name position ;;; parseJointsLoop fuel m l'
      | PLANAR => pret false
      | FIXED =>
        createAnchorJoint name position ;;; parseJointsLoop fuel m l'
      end
    end
  end.

Definition parseJoints (fuel : nat) (m : UrdfModel) : PM bool :=
  root <~ createFreeflyerJoint "base_joint" m4id ;;
  match root with
  | None => pret false
  | Some r =>
    st <~ pget ;;
    pput (setRobot (withRoot (n_name r)) (setRootJoint (n_name r) st)) ;;;
    parseJointsLoop fuel m (joints_ m)
  end.

(** ** Tree assembler: [Parser::getChildrenJoint] and [Parser::connectJoints] *)

(** [getChildrenJoint (jointName, result)]: returns the success flag and the
    extended [result].  A null [childLink] is logged and then dereferenced. *)
Fixpoint getChildrenJointAux (fuel : nat) (m : UrdfModel) (reg : list (string * Node))
  (jointName : string) (result : list string) : outcome (bool * list string) :=
  match fuel with
  | O => NoFuel
  | S fuel' =>
    let joint := getJoint m jointName in
    match joint, String.eqb jointName "base_joint" with
    | None, false => Ret (false, result)
    | _, isBase =>
      let childLink :=
        if isBase then getLink m "base_link"
        else match joint with Some j => getLink m (j_child_link j) | None => None end in
      match childLink with
      | None => Fault "childLink->child_joints on a null link"
      | Some cl =>
        (fix loop (cs : list string) (result : list string) :=
           match cs with
           | [] => Ret (true, result)
           | c :: cs' =>
             match lookup c reg with
             | Some _ => loop cs' (result ++ [c])%list
             | None =>
               r <- getChildrenJointAux fuel' m reg c result ;;
               if fst r then loop cs' (snd r) else Ret (false, snd r)
             end
           end) (l_child_joints cl) result
      end
    end
  end.

(** The one-argument overload: the success flag is dropped. *)
Definition getChildrenJoint (fuel : nat) (m : UrdfModel) (reg : list (string * Node))
  (jointName : string) : outcome (list string) :=
  r <- getChildrenJointAux fuel m reg jointName [] ;; Ret (snd r).

Definition addChildJoint (parent child : string) : PM unit :=
  fun st =>
    Ret (tt, mkPState (jointsMap st) (rootJoint st) (childEdges st ++ [(parent, child)])%list
                      (bodies st) (solids st) (bodyNames st) (specialNames st) (robot st)).

(** The guard [child == jointsMap_.end () && !!child->second] reads
    [child->second] exactly when [child] is [end ()]; the value returned by
    the recursive call is not inspected. *)
Fixpoint connectJoints (fuel : nat) (m : UrdfModel) (rootName : string) : PM bool :=
  match fuel with
  | O => fun _ => NoFuel
  | S fuel' =>
    st <~ pget ;;
    names <~ plift (getChildrenJoint fuel m (jointsMap st) rootName) ;;
    (fix loop (ns : list string) : PM bool :=
       match ns with
       | [] => pret true
       | childName :: ns' =>
         st <~ pget ;;
         match findJoint childName st with
         | None => pfault "child->second on jointsMap_.end ()"
         | Some child =>
           addChildJoint rootName (n_name child) ;;;
           connectJoints fuel' m (n_name child) ;;;
           loop ns'
         end
       end) names
  end.

(** ** Anatomy resolver: [findSpecialJoint], [findSpecialJoints], [setSpecialJoints] *)

Definition specialName (role : string) (st : PState) : string :=
  match lookup role (specialNames st) with Some n => n | None => "" end.

Definition setSpecialName (role name : string) (st : PState) : PState :=
  mkPState (jointsMap st) (rootJoint st) (childEdges st) (bodies st) (solids st)
           (bodyNames st) (map_insert role name (specialNames st)) (robot st).

(** [model_.links_[repName]] also inserts a null entry for a missing name;
    no code of the parser iterates over [links_], so the insertion is not
    observable and is not modelled.  The name is left unchanged when the
    link or its parent joint is missing. *)
Definition findSpecialJoint (m : UrdfModel) (repName role : string) (st : PState) : PState :=
  match getLink m repName with
  | Some linkPtr =>
    match l_parent_joint linkPtr with
    | Some joint => setSpecialName role joint st
    | None => st
    end
  | None => st
  end.

Definition findSpecialJoints (m : UrdfModel) (st : PState) : PState :=
  let st := setSpecialName "waist" "base_joint" st in
  let st := findSpecialJoint m "torso" "chest" st in
  let st := findSpecialJoint m "l_wrist" "leftWrist" st in
  let st := findSpecialJoint m "r_wrist" "rightWrist" st in
  let st := findSpecialJoint m "l_gripper" "leftHand" st in
  let st := findSpecialJoint m "r_gripper" "rightHand" st in
  let st := findSpecialJoint m "l_ankle" "leftAnkle" st in
  let st := findSpecialJoint m "r_ankle" "rightAnkle" st in
  let st := findSpecialJoint m "l_sole" "leftFoot" st in
  let st := findSpecialJoint m "r_sole" "rightFoot" st in
  findSpecialJoint m "gaze" "gaze" st.

Definition withRole (role jointName : string) (r : Robot) : Robot :=
  mkRobot (rb_root r) (map_insert role jointName (rb_roles r)) (rb_actuated r)
          (rb_gaze r) (rb_hands r) (rb_feet r) (rb_steering r).

(** [if (!findJoint (name)) hppDout (notice, ...); else robot_->role (...)] *)
Definition setSpecialJoint (role : string) (st : PState) : PState :=
  match findJoint (specialName role st) st with
  | None => st
  | Some j => setRobot (withRole role (n_name j)) st
  end.

Definition setSpecialJoints (st : PState) : PState :=
  fold_left (fun st role => setSpecialJoint role st)
    ["waist"; "chest"; "leftWrist"; "rightWrist"; "leftAnkle"; "rightAnkle"; "gaze"] st.

(** ** Geometry attachment: [computeBodyAbsolutePosition], [addSolidComponentToJoint] *)

(** [CkitMat4::rotateY (M_PI / 2)] on an identity matrix. *)
Definition zTox : M4 :=
  homogeneous (mkM3 (cos (PI / 2)) 0 (sin (PI / 2))
                    0 1 0
                    (- sin (PI / 2)) 0 (cos (PI / 2))) (mkV3 0 0 0).

Definition parentJointType (m : UrdfModel) (link : UrdfLink) : outcome UrdfJoint :=
  match l_parent_joint link with
  | None => Fault "link->parent_joint is null"
  | Some pj =>
    match getJoint m pj with
    | Some j => Ret j
    | None => Fault "link->parent_joint is not a joint of the model"
    end
  end.

Definition computeBodyAbsolutePosition (m : UrdfModel) (link : UrdfLink) (pose : Pose)
  (st : PState) : outcome M4 :=
  let linkPositionInParentJoint := poseToMatrix pose in
  let isBase := String.eqb (l_name link) "base_link" in
  parentJointInWorld <-
    (if isBase then
       match findJoint "base_joint" st with
       | Some j => Ret (n_pose j)
       | None => Fault "findJoint (base_joint) is null"
       end
     else
       pj <- parentJointType m link ;;
       match findJoint (j_name pj) st with
       | Some j => Ret (n_pose j)
       | None => Fault "findJoint (parent_joint->name) is null"
       end) ;;
  parentJointInWorld <-
    (if isBase then Ret parentJointInWorld
     else
       pj <- parentJointType m link ;;
       if isActuatedType (j_type pj)
       then Ret (parentJointInWorld
                 ** m4inverse (normalizeFrameOrientation (Some (j_axis pj))))
       else Ret parentJointInWorld) ;;
  Ret (parentJointInWorld ** linkPositionInParentJoint).

Definition addSolid (jointName : string) (s : Solid) : PM unit :=
  fun st =>
    Ret (tt, mkPState (jointsMap st) (rootJoint st) (childEdges st) (bodies st)
                      (solids st ++ [(jointName, s)])%list (bodyNames st)
                      (specialNames st) (robot st)).

(** The external resource loader [loadPolyhedronFromResource]: whether the
    mesh file can be loaded. *)
Definition Loader := string -> V3 -> bool.

(** The four independent [if] blocks of the function, in source order. *)
Definition addSolidComponentToJoint (load : Loader) (m : UrdfModel) (link : UrdfLink)
  (joint : Node) (visual collision : Shape) : PM bool :=
  let vname := l_name link in
  let jname := n_name joint in
  (* mesh / mesh *)
  r1 <~ (match sh_geometry visual, sh_geometry collision with
         | Mesh visualFilename scale, Mesh collisionFilename _ =>
           if negb (String.eqb visualFilename collisionFilename) then pret false
           else if negb (load visualFilename scale) then pret false
           else
             st <~ pget ;;
             position <~ plift (computeBodyAbsolutePosition m link (sh_origin visual) st) ;;
             addSolid jname (SPolyhedron vname visualFilename scale position) ;;;
             pret true
         | _, _ => pret true
         end) ;;
  if negb r1 then pret false else
  (* cylinder / cylinder: the visual dimensions are used *)
  (match sh_geometry visual, sh_geometry collision with
   | Cylinder radius length, Cylinder _ _ =>
     st <~ pget ;;
     position <~ plift (computeBodyAbsolutePosition m link (sh_origin visual) st) ;;
     addSolid jname (SCylinder vname radius length (position ** zTox))
   | _, _ => pret tt
   end) ;;;
  (* box / box: the visual dimensions are used *)
  (match sh_geometry visual, sh_geometry collision with
   | Box dim, Box _ =>
     st <~ pget ;;
     position <~ plift (computeBodyAbsolutePosition m link (sh_origin visual) st) ;;
     addSolid jname (SBox vname (vx dim) (vy dim) (vz dim) position)
   | _, _ => pret tt
   end) ;;;
  (* mesh / cylinder: a capsule and its segment *)
  (match sh_geometry visual, sh_geometry collision with
   | Mesh _ _, Cylinder radius length =>
     st <~ pget ;;
     position <~ plift (computeBodyAbsolutePosition m link (sh_origin collision) st) ;;
     let position := position ** zTox in
     addSolid jname (SCapsule vname length radius position) ;;;
     addSolid jname (SSegment (vname ++ "-segment") radius position)
   | _, _ => pret tt
   end) ;;;
  pret true.

(** ** Body/inertia attacher: [Parser::addBodiesToJoints] *)

Definition m3zero : M3 := mkM3 0 0 0 0 0 0 0 0 0.

(** The inertial data of a link: [(mass, localCom, inertiaMatrix)], re-expressed
    in the normalized frame of an actuated parent joint. *)
Definition linkInertia (m : UrdfModel) (jointName : string) (link : UrdfLink)
  : outcome (R * V3 * M3) :=
  match l_inertial link with
  | None => Ret (0, mkV3 0 0 0, m3zero)
  | Some inertial =>
    let localCom := position (in_origin inertial) in
    let mass := in_mass inertial in
    let inertiaMatrix :=
      mkM3 (ixx inertial) (ixy inertial) (ixz inertial)
           (ixy inertial) (iyy inertial) (iyz inertial)
           (ixz inertial) (iyz inertial) (izz inertial) in
    if String.eqb jointName "base_joint" then Ret (mass, localCom, inertiaMatrix)
    else
      pj <- parentJointType m link ;;
      if isActuatedType (j_type pj) then
        let normalizedJointTransform := normalizeFrameOrientation (Some (j_axis pj)) in
        Ret (mass, reexpressCom normalizedJointTransform localCom,
             reexpressInertia normalizedJointTransform inertiaMatrix)
      else Ret (mass, localCom, inertiaMatrix)
  end.

Definition setLinkedBody (jointName : string) (b : Body) : PM unit :=
  fun st =>
    Ret (tt, mkPState (jointsMap st) (rootJoint st) (childEdges st)
                      (bodies st ++ [(jointName, b)])%list (solids st) (bodyNames st)
                      (specialNames st) (robot st)).

Definition setBodyName (jointName linkName : string) : PM unit :=
  fun st =>
    Ret (tt, mkPState (jointsMap st) (rootJoint st) (childEdges st) (bodies st)
                      (solids st) (bodyNames st ++ [(jointName, linkName)])%list
                      (specialNames st) (robot st)).

(** One iteration of the loop over [jointsMap_]: [None] is [continue],
    [Some b] is the value of the function when it returns from the loop. *)
Definition addBodyToJoint (load : Loader) (m : UrdfModel) (name : string) (node : Node)
  : PM (option bool) :=
  let joint := getJoint m name in
  let isBase := String.eqb name "base_joint" in
  match joint, isBase with
  | None, false => pret None
  | _, _ =>
    let childLinkName :=
      if isBase then "base_link"
      else match joint with Some j => j_child_link j | None => "" end in
    match getLink m childLinkName with
    | None => pret (Some false)
    | Some link =>
      inertia <~ plift (linkInertia m name link) ;;
      let '(mass, localCom, inertiaMatrix) := inertia in
      setLinkedBody (n_name node) (mkBody mass localCom inertiaMatrix) ;;;
      match l_visual link, l_collision link with
      | Some visual, Some collision =>
        ok <~ addSolidComponentToJoint load m link node visual collision ;;
        if ok then setBodyName (n_name node) childLinkName ;;; pret None
        else pret (Some false)
      | _, _ => pret None
      end
    end
  end.

Fixpoint addBodiesLoop (load : Loader) (m : UrdfModel) (l : list (string * Node))
  : PM bool :=
  match l with
  | [] => pret true
  | (name, node) :: l' =>
    r <~ addBodyToJoint load m name node ;;
    match r with
    | Some b => pret b
    | None => addBodiesLoop load m l'
    end
  end.

Definition addBodiesToJoints (load : Loader) (m : UrdfModel) : PM bool :=
  st <~ pget ;; addBodiesLoop load m (jointsMap st).

(** ** [Parser::actuatedJoints]

    The joint pointers of the model are never null here, so the first
    [throw] is not reachable and not modelled. *)
Fixpoint actuatedJointsLoop (l : list (string * UrdfJoint)) (reg : list (string * Node))
  (jointsVect : list string) : outcome (list string) :=
  match l with
  | [] => Ret jointsVect
  | (name, second) :: l' =>
    match j_type second with
    | UNKNOWN | FLOATING | FIXED => actuatedJointsLoop l' reg jointsVect
    | _ =>
      match lookup name reg with
      | None => Throw "failed to compute actuated joints"
      | Some child =>
        if existsb (String.eqb (n_name child)) jointsVect
        then actuatedJointsLoop l' reg jointsVect
        else actuatedJointsLoop l' reg (jointsVect ++ [n_name child])%list
      end
    end
  end.

Definition actuatedJoints (m : UrdfModel) (st : PState) : outcome (list string) :=
  actuatedJointsLoop (joints_ m) (jointsMap st) [].

(** ** [Parser::fillGaze]: the iterator is dereferenced without a check. *)
Definition fillGaze : PM unit :=
  st <~ pget ;;
  match findJoint (specialName "gaze" st) st with
  | None => pfault "gaze->second on jointsMap_.end ()"
  | Some gazeJoint =>
    pput (setRobot (fun r =>
      mkRobot (rb_root r) (map_insert "gaze" (n_name gazeJoint) (rb_roles r))
              (rb_actuated r) (Some (mkV3 1 0 0, mkV3 0 0 0))
              (rb_hands r) (rb_feet r) (rb_steering r)) st)
  end.

(** ** [Parser::fillHandsAndFeet]; [initialPosition ()] is the node's pose. *)
Definition computeHandsInformation (hand wrist : Node) : Hand :=
  let wrist_M_hand := m4inverse (n_pose wrist) ** n_pose hand in
  let r := rot3 wrist_M_hand in
  mkHand (n_name wrist) (trans3 wrist_M_hand) (m3col r 0) (m3col r 1) (m3col r 2).

Definition computeAnklePositionInLocalFrame (foot ankle : Node) : V3 :=
  trans3 (m4inverse (n_pose foot) ** n_pose ankle).

Definition withHand (side : string) (h : Hand) (r : Robot) : Robot :=
  mkRobot (rb_root r) (rb_roles r) (rb_actuated r) (rb_gaze r)
          (map_insert side h (rb_hands r)) (rb_feet r) (rb_steering r).

Definition withFoot (side : string) (f : Foot) (r : Robot) : Robot :=
  mkRobot (rb_root r) (rb_roles r) (rb_actuated r) (rb_gaze r)
          (rb_hands r) (map_insert side f (rb_feet r)) (rb_steering r).

Definition fillHand (side handRole wristRole : string) (st : PState) : PState :=
  match findJoint (specialName handRole st) st, findJoint (specialName wristRole st) st with
  | Some hand, Some wrist => setRobot (withHand side (computeHandsInformation hand wrist)) st
  | _, _ => st
  end.

Definition fillFoot (side footRole ankleRole : string) (st : PState) : PState :=
  match findJoint (specialName footRole st) st, findJoint (specialName ankleRole st) st with
  | Some foot, Some ankle =>
    setRobot (withFoot side (mkFoot (n_name ankle)
                                    (computeAnklePositionInLocalFrame foot ankle))) st
  | _, _ => st
  end.

Definition fillHandsAndFeet (st : PState) : PState :=
  fillFoot "right" "rightFoot" "rightAnkle"
    (fillFoot "left" "leftFoot" "leftAnkle"
      (fillHand "right" "rightHand" "rightWrist"
        (fillHand "left" "leftHand" "leftWrist" st))).

(** ** [Parser::setFreeFlyerBounds] *)
Definition freeFlyerSettings : list BoundSetting :=
  [Unbounded 0; Unbounded 1; Unbounded 2;
   IsBounded 3 true; Bounds 3 (- (PI / 6)) (PI / 6);
   IsBounded 4 true; Bounds 4 (- (PI / 6)) (PI / 6);
   Unbounded 5].

Definition setFreeFlyerBounds : PM unit :=
  st <~ pget ;;
  match robot st with
  | None => pfault "robot_ is null"
  | Some r =>
    match rb_root r with
    | None => pfault "getRootJoint () is null"
    | Some rootName =>
      match findJoint rootName st with
      | None => pfault "root joint is not registered"
      | Some root =>
        registerJoint rootName
          (mkNode (n_name root) (n_kind root) (n_pose root)
                  (n_settings root ++ freeFlyerSettings)%list)
      end
    end
  end.

Definition setActuated (l : list string) (r : Robot) : Robot :=
  mkRobot (rb_root r) (rb_roles r) l (rb_gaze r) (rb_hands r) (rb_feet r) (rb_steering r).

Definition setSteering (r : Robot) : Robot :=
  mkRobot (rb_root r) (rb_roles r) (rb_actuated r) (rb_gaze r) (rb_hands r) (rb_feet r) true.

(** ** [Parser::parseStream]

    [decoded] is the result of the external decoder [model_.initString]
    ([None] when it fails).  [robot_->initialize ()] is external and does not
    change the modelled state.  The result is the returned robot pointer
    ([None] is the reset pointer) and the parser's state. *)
Definition resetRobot : PM (option Robot) :=
  st <~ pget ;;
  let st := mkPState (jointsMap st) (rootJoint st) (childEdges st) (bodies st)
                     (solids st) (bodyNames st) (specialNames st) None in
  pput st ;;; pret None.

Definition returnRobot : PM (option Robot) := st <~ pget ;; pret (robot st).

Definition parseStream (fuel : nat) (load : Loader) (decoded : option UrdfModel)
  : PM (option Robot) :=
  st <~ pget ;;
  pput (mkPState [] None [] [] [] [] (specialNames st) (Some emptyRobot)) ;;;
  match decoded with
  | None => resetRobot
  | Some m =>
    st <~ pget ;; pput (findSpecialJoints m st) ;;;
    ok <~ parseJoints fuel m ;;
    if negb ok then resetRobot else
    match getRoot m with
    | None => resetRobot
    | Some _ =>
      st <~ pget ;;
      match rootJoint st with
      | None => pfault "rootJoint_ is null"
      | Some rootName =>
        ok <~ connectJoints fuel m rootName ;;
        if negb ok then resetRobot else
        st <~ pget ;; pput (setSpecialJoints st) ;;;
        ok <~ addBodiesToJoints load m ;;
        if negb ok then resetRobot else
        st <~ pget ;;
        actJointsVect <~ plift (actuatedJoints m st) ;;
        st <~ pget ;; pput (setRobot (setActuated actJointsVect) st) ;;;
        fillGaze ;;;
        st <~ pget ;; pput (fillHandsAndFeet st) ;;;
        st <~ pget ;; pput (setRobot setSteering st) ;;;
        setFreeFlyerBounds ;;;
        returnRobot
      end
    end
  end.

(** ** Concrete inputs *)

Definition identityPose : Pose := mkPose (mkV3 0 0 0) (mkQuat 0 0 0 1).

Definition fixedJoint (name parent child : string) : UrdfJoint :=
  mkJoint name FIXED (mkV3 1 0 0) identityPose parent child None.

(** A loader that loads every mesh. *)
Definition loadAll : Loader := fun _ _ => true.

(** A single link [base_link] and no joint: no [gaze] link. *)
Definition singleLinkModel : UrdfModel :=
  mkModel [("base_link", plainLink "base_link" None [])] [] (Some "base_link").

(** A document joint named [base_joint], the name of the synthesized root:
    [world -base_joint-> base_link -gaze_joint-> gaze]. *)
Definition rootNameClashModel : UrdfModel :=
  mkModel
    [("base_link", plainLink "base_link" (Some "base_joint") ["gaze_joint"]);
     ("gaze", plainLink "gaze" (Some "gaze_joint") []);
     ("world", plainLink "world" None ["base_joint"])]
    [("base_joint", fixedJoint "base_joint" "world" "base_link");
     ("gaze_joint", fixedJoint "gaze_joint" "base_link" "gaze")]
    (Some "world").

(** Two sibling links under [base_link]: [a_link] with visual mesh [a.obj]
    and collision mesh [b.obj], and [z_link] with a box. *)
Definition meshMismatchModel : UrdfModel :=
  mkModel
    [("a_link", mkLink "a_link" None
                  (Some (mkShape identityPose (Mesh "a.obj" (mkV3 1 1 1))))
                  (Some (mkShape identityPose (Mesh "b.obj" (mkV3 1 1 1))))
                  (Some "a_joint") []);
     ("base_link", plainLink "base_link" None ["a_joint"; "z_joint"]);
     ("gaze", plainLink "gaze" (Some "z_joint") []);
     ("z_link", mkLink "z_link" None
                  (Some (mkShape identityPose (Box (mkV3 1 1 1))))
                  (Some (mkShape identityPose (Box (mkV3 1 1 1))))
                  (Some "z_joint") [])]
    [("a_joint", fixedJoint "a_joint" "base_link" "a_link");
     ("z_joint", fixedJoint "z_joint" "base_link" "z_link")]
    (Some "base_link").

Definition planarJointModel : UrdfModel :=
  mkModel
    [("base_link", plainLink "base_link" None ["p_joint"]);
     ("p_link", plainLink "p_link" (Some "p_joint") [])]
    [("p_joint", mkJoint "p_joint" PLANAR (mkV3 0 0 1) identityPose "base_link" "p_link" None)]
    (Some "base_link").

Definition revoluteModel : UrdfModel :=
  mkModel
    [("base_link", plainLink "base_link" None ["j1"]);
     ("l1", plainLink "l1" (Some "j1") [])]
    [("j1", mkJoint "j1" REVOLUTE (mkV3 0 0 1) identityPose "base_link" "l1"
              (Some (mkLimits (-1) 1 5 2)))]
    (Some "base_link").

(** ** [actuatedJoints] on a successfully parsed model *)

Ltac outcome_cases e :=
  let a := fresh "a" in let s := fresh "s" in
  destruct e as [[a s]|s|s|]; simpl; try discriminate.

Definition actuatedEntry (l : list (string * UrdfJoint)) (reg : list (string * Node))
  (x : string) : Prop :=
  exists name j node, In (name, j) l /\
    j_type j <> UNKNOWN /\ j_type j <> FLOATING /\ j_type j <> FIXED /\
    lookup name reg = Some node /\ n_name node = x.

(** ** A [PLANAR] joint aborts the build *)

(** Every [parent_joint] pointer of a link is a joint of the model (the
    decoder builds the links' pointers from its joint map). *)
Definition parentJointsKnown (m : UrdfModel) : Prop :=
  forall ln l pj, getLink m ln = Some l -> l_parent_joint l = Some pj ->
  exists j, getJoint m pj = Some j.

(** ** Vocabulary of the properties below *)

(** A homogeneous transform: last row [(0, 0, 0, 1)]. *)
Definition lastRowUnit (m : M4) : Prop := b30 m = 0 /\ b31 m = 0 /\ b32 m = 0 /\ b33 m = 1.

(** The squared norm of a quaternion; [btMatrix3x3] divides by it. *)
Definition quatNorm2 (q : Quat) : R := qx q * qx q + qy q * qy q + qz q * qz q + qw q * qw q.

(** A quaternion scaled by [c]. *)
Definition quatScale (c : R) (q : Quat) : Quat := mkQuat (c * qx q) (c * qy q) (c * qz q) (c * qw q).

(** The declared inertia tensor of a link ([inertiaMatrix (i, j)] in the source). *)
Definition declaredInertia (i : Inertial) : M3 :=
  mkM3 (ixx i) (ixy i) (ixz i) (ixy i) (iyy i) (iyz i) (ixz i) (iyz i) (izz i).

(** The 3x3 block whose columns are [a], [b], [c]. *)
Definition fromColumns (a b c : V3) : M3 :=
  mkM3 (vx a) (vx b) (vx c) (vy a) (vy b) (vy c) (vz a) (vz b) (vz c).

(** The node a successful [create*] call returns is found under its name,
    with the given kind and position, and every other name is looked up as
    before; the rest of the parser state is unchanged. *)
Definition registersAs (name : string) (mat : M4) (kind : NodeKind)
  (c : PM (option Node)) (st : PState) : Prop :=
  exists node st',
    c st = Ret (Some node, st') /\
    n_name node = name /\ n_kind node = kind /\ n_pose node = mat /\
    findJoint name st' = Some node /\
    (forall n, n <> name -> findJoint n st' = findJoint n st) /\
    st' = setJointsMap (jointsMap st') st.

(** A [create*] call adds at most its own name to the registry and leaves the
    root joint alone. *)
Definition createStep (name : string) (c : PM (option Node)) : Prop :=
  forall st r st1, c st = Ret (r, st1) ->
  (forall n, isRegistered n st1 = true <-> isRegistered n st = true \/ n = name) /\
  rootJoint st1 = rootJoint st.

(** The names of the nodes held by the registry. *)
Definition registeredNodeNames (st : PState) : list string :=
  map (fun e => n_name (snd e)) (jointsMap st).

(** The [(link, role)] pairs [findSpecialJoints] resolves, in source order. *)
Definition specialJointLinks : list (string * string) :=
  [("torso", "chest"); ("l_wrist", "leftWrist"); ("r_wrist", "rightWrist");
   ("l_gripper", "leftHand"); ("r_gripper", "rightHand");
   ("l_ankle", "leftAnkle"); ("r_ankle", "rightAnkle");
   ("l_sole", "leftFoot"); ("r_sole", "rightFoot"); ("gaze", "gaze")].

(** A parser action that leaves the registry and the linked bodies alone. *)
Definition keepsBodies {A : Type} (c : PM A) : Prop :=
  forall st r st', c st = Ret (r, st') -> bodies st' = bodies st /\ jointsMap st' = jointsMap st.

(** The [childLinkName] of a registry entry in [addBodiesToJoints]: [base_link]
    for [base_joint], otherwise the child link of the model joint of that name. *)
Definition bodyChildLinkName (m : UrdfModel) (name : string) : string :=
  if String.eqb name "base_joint" then "base_link"
  else match getJoint m name with Some j => j_child_link j | None => "" end.

(** Whether [addBodiesToJoints] handles a registry entry: the name is
    ["base_joint"] or a joint of the model. *)
Definition bodyEntry (m : UrdfModel) (e : string * Node) : bool :=
  match getJoint m (fst e) with Some _ => true | None => String.eqb (fst e) "base_joint" end.

(** The robot with its role table replaced. *)
Definition withRoles (roles : list (string * string)) (r : Robot) : Robot :=
  mkRobot (rb_root r) roles (rb_actuated r) (rb_gaze r) (rb_hands r) (rb_feet r)
          (rb_steering r).

(** Concrete inputs of the properties below. *)

(** The link [l1] of [revoluteModel], with a declared inertial of mass 2. *)
Definition inertialLink : UrdfLink :=
  mkLink "l1" (Some (mkInertial identityPose 2 1 0 0 1 0 1)) None None (Some "j1") [].

(** The parser state after [parseJoints] on [revoluteModel]. *)
Definition revoluteParsed : PState :=
  match parseJoints 20 revoluteModel initialPState with
  | Ret (_, st) => st
  | _ => initialPState
  end.

Definition sphereShape : Shape := mkShape identityPose (Sphere 1).

(** * Proofs *)

(** ** Lemmas on the frame normalizer *)

Lemma norm2_nonneg (a : V3) : 0 <= norm2 a.
Proof. unfold norm2, dot; nra. Qed.

Lemma norm2_normalize (a : V3) : norm2 a <> 0 -> norm2 (normalize a) = 1.
Proof.
  intro Hn.
  assert (Hs : sqrt (norm2 a) * sqrt (norm2 a) = norm2 a)
    by (apply sqrt_sqrt, norm2_nonneg).
  assert (Hs0 : sqrt (norm2 a) <> 0)
    by (intro H; rewrite H in Hs; lra).
  unfold normalize; cbv zeta.
  set (n := sqrt (norm2 a)) in *.
  transitivity (norm2 a / (n * n)).
  - unfold norm2, dot; simpl. field. exact Hs0.
  - rewrite Hs. field. exact Hn.
Qed.

Lemma frameBasis_columns (a : V3) :
  m3col (frameBasis a) 0 = normalize a /\
  m3col (frameBasis a) 2 = cross (normalize a) (basis (smallestComponent (normalize a))) /\
  m3col (frameBasis a) 1 =
    cross (cross (normalize a) (basis (smallestComponent (normalize a)))) (normalize a).
Proof. unfold frameBasis; cbv zeta; repeat split; reflexivity. Qed.

Lemma cross_orth_left (x e : V3) : dot x (cross x e) = 0.
Proof. destruct x, e; unfold dot, cross; simpl; ring. Qed.

Lemma cross_orth_right (x e : V3) : dot e (cross x e) = 0.
Proof. destruct x, e; unfold dot, cross; simpl; ring. Qed.

(** Lagrange's identity. *)
Lemma norm2_cross (x e : V3) :
  norm2 (cross x e) = norm2 x * norm2 e - dot x e * dot x e.
Proof. destruct x, e; unfold norm2, dot, cross; simpl; ring. Qed.

Lemma dot_comm (x e : V3) : dot x e = dot e x.
Proof. destruct x, e; unfold dot; simpl; ring. Qed.

Lemma norm2_basis (k : nat) : norm2 (basis k) = 1.
Proof. destruct k as [|[|]]; unfold norm2, dot; simpl; ring. Qed.

Lemma dot_basis (x : V3) (k : nat) : dot x (basis k) = v3get x k.
Proof. destruct x, k as [|[|]]; unfold dot; simpl; ring. Qed.

(** What the frame normalizer does compute on a non-zero axis: column 0 is
    the normalized axis, the three columns are pairwise orthogonal, column 0
    has norm 1, and columns 1 and 2 have squared norm [1 - x_k^2], where
    [x_k] is the selected smallest component of the normalized axis. *)
Lemma frameBasis_shape (a : V3) :
  norm2 a <> 0 ->
  let m := frameBasis a in
  let x := normalize a in
  let k := smallestComponent x in
  m3col m 0 = x /\ norm2 (m3col m 0) = 1 /\
  dot (m3col m 0) (m3col m 1) = 0 /\ dot (m3col m 0) (m3col m 2) = 0 /\
  dot (m3col m 1) (m3col m 2) = 0 /\
  norm2 (m3col m 1) = 1 - v3get x k * v3get x k /\
  norm2 (m3col m 2) = 1 - v3get x k * v3get x k.
Proof.
  intros Hn m x k.
  destruct (frameBasis_columns a) as (H0 & H2 & H1).
  fold x k in H0, H1, H2. subst m. rewrite H0, H1, H2.
  assert (Hx : norm2 x = 1) by (apply norm2_normalize; exact Hn).
  set (e := basis k). set (z := cross x e).
  assert (Hz : norm2 z = 1 - v3get x k * v3get x k).
  { subst z e. rewrite norm2_cross, Hx, norm2_basis, dot_basis. ring. }
  assert (Hxz : dot x z = 0) by apply cross_orth_left.
  repeat split.
  - exact Hx.
  - apply cross_orth_right.
  - exact Hxz.
  - rewrite dot_comm. apply cross_orth_left.
  - rewrite norm2_cross, Hx, (dot_comm z x), Hxz, Hz. ring.
  - exact Hz.
Qed.

Lemma rot3_normalizeFrameOrientation (a : V3) :
  rot3 (normalizeFrameOrientation (Some a)) = frameBasis a.
Proof. unfold normalizeFrameOrientation, rot3, frameBasis; reflexivity. Qed.

Lemma normalize_122 : normalize (mkV3 1 2 2) = mkV3 (1/3) (2/3) (2/3).
Proof.
  unfold normalize, norm2, dot; simpl.
  replace (1 * 1 + 2 * 2 + 2 * 2) with (3 * 3) by ring.
  rewrite sqrt_square by lra. reflexivity.
Qed.

Lemma smallestComponent_122 : smallestComponent (mkV3 (1/3) (2/3) (2/3)) = 0%nat.
Proof.
  unfold smallestComponent; simpl.
  rewrite (Rabs_pos_eq (1/3)) by lra. rewrite (Rabs_pos_eq (2/3)) by lra.
  destruct (Rlt_dec (1/3) (1/3)); [lra|]. simpl.
  rewrite (Rabs_pos_eq (1/3)) by lra.
  destruct (Rlt_dec (2/3) (1/3)); [lra|]. simpl.
  rewrite (Rabs_pos_eq (1/3)) by lra.
  destruct (Rlt_dec (2/3) (1/3)); [lra|]. reflexivity.
Qed.

(** ** Properties of the frame normalizer *)

(** C1.  For the axis [(1, 2, 2)] the frame normalizer returns a
    first column equal to the normalized axis [(1/3, 2/3, 2/3)], but its
    second and third columns have squared norm [8/9], not [1]: the code
    forms [z = x ^ e_k] and [y = z ^ x] without normalizing them, although
    its own comment states that [(x, y, z)] is an orthonormal basis. *)
Theorem normalizeFrameOrientation_columns_not_unit :
  let m := rot3 (normalizeFrameOrientation (Some (mkV3 1 2 2))) in
  m3col m 0 = mkV3 (1/3) (2/3) (2/3) /\
  norm2 (m3col m 1) = 8/9 /\ norm2 (m3col m 2) = 8/9.
Proof.
  intro m. subst m. rewrite rot3_normalizeFrameOrientation.
  destruct (frameBasis_columns (mkV3 1 2 2)) as (H0 & H2 & H1).
  rewrite H0, H1, H2, normalize_122, smallestComponent_122.
  unfold norm2, dot, cross; simpl. repeat split; field.
Qed.

Lemma det3_mul (a b : M3) : det3 (m3mul a b) = det3 a * det3 b.
Proof. destruct a, b; unfold det3, m3mul; simpl; ring. Qed.

Lemma det3_transpose (a : M3) : det3 (m3transpose a) = det3 a.
Proof. destruct a; unfold det3, m3transpose; simpl; ring. Qed.

Lemma det3_orthonormal (r : M3) : orthonormal3 r -> det3 r <> 0.
Proof.
  unfold orthonormal3; intros H Hd.
  assert (E : det3 (m3mul (m3transpose r) r) = det3 m3id) by (rewrite H; reflexivity).
  rewrite det3_mul, det3_transpose, Hd in E. unfold det3, m3id in E; simpl in E. lra.
Qed.

Lemma inv3_mul_l (r : M3) : det3 r <> 0 -> m3mul (inv3 r) r = m3id.
Proof.
  destruct r; unfold det3; simpl; intro Hd.
  unfold m3mul, inv3, m3id, det3; simpl. f_equal; field; exact Hd.
Qed.

Lemma det3_inv3 (r : M3) : det3 r <> 0 -> det3 (inv3 r) * det3 r = 1.
Proof.
  destruct r; unfold det3; simpl; intro Hd.
  unfold inv3, det3; simpl. field. exact Hd.
Qed.

Lemma reexpressInertia_block (r a : M3) :
  reexpressInertia (homogeneous r (mkV3 0 0 0)) a = m3mul (m3mul (inv3 r) a) r.
Proof.
  destruct r, a.
  cbv -[Rmult Rplus Rminus Ropp Rdiv Rinv IZR]. f_equal; ring.
Qed.

Lemma conj_sub_scale (ri a r : M3) (l : R) :
  m3mul ri r = m3id ->
  m3sub (m3mul (m3mul ri a) r) (m3scale l m3id)
  = m3mul (m3mul ri (m3sub a (m3scale l m3id))) r.
Proof.
  intro H.
  assert (E : m3mul (m3mul ri (m3sub a (m3scale l m3id))) r
              = m3sub (m3mul (m3mul ri a) r) (m3scale l (m3mul ri r))).
  { destruct ri, a, r; unfold m3mul, m3sub, m3scale, m3id; simpl; f_equal; ring. }
  rewrite E, H. reflexivity.
Qed.

(** C9.  For a symmetric inertia tensor [I] and an orthonormal 3x3 block [R]
    (the normalized joint transform has no translation part), the tensor
    re-expressed by the body attacher, [R^-1 I R], has the characteristic
    polynomial of [I], hence the same eigenvalues (with multiplicities). *)
Theorem reexpressInertia_same_eigenvalues (r inertia : M3) :
  orthonormal3 r -> symmetric3 inertia ->
  (forall l, charpoly3 (reexpressInertia (homogeneous r (mkV3 0 0 0)) inertia) l
             = charpoly3 inertia l) /\
  (forall l, is_eigenvalue (reexpressInertia (homogeneous r (mkV3 0 0 0)) inertia) l
             <-> is_eigenvalue inertia l).
Proof.
  intros Hr _.
  assert (Hd : det3 r <> 0) by (apply det3_orthonormal; exact Hr).
  assert (Hc : forall l, charpoly3 (reexpressInertia (homogeneous r (mkV3 0 0 0)) inertia) l
                         = charpoly3 inertia l).
  { intro l. unfold charpoly3.
    rewrite reexpressInertia_block, conj_sub_scale by (apply inv3_mul_l; exact Hd).
    rewrite !det3_mul.
    replace (det3 (inv3 r) * det3 (m3sub inertia (m3scale l m3id)) * det3 r)
      with (det3 (inv3 r) * det3 r * det3 (m3sub inertia (m3scale l m3id))) by ring.
    rewrite det3_inv3 by exact Hd. ring. }
  split; [exact Hc|].
  intro l. unfold is_eigenvalue. rewrite Hc. tauto.
Qed.

(** A quarter turn about [z] and a symmetric tensor satisfy the hypotheses. *)
Lemma reexpressInertia_same_eigenvalues_witness :
  orthonormal3 (mkM3 0 (-1) 0 1 0 0 0 0 1) /\
  symmetric3 (mkM3 2 1 0 1 3 0 0 0 4) /\
  charpoly3 (reexpressInertia (homogeneous (mkM3 0 (-1) 0 1 0 0 0 0 1) (mkV3 0 0 0))
                              (mkM3 2 1 0 1 3 0 0 0 4)) 5
  = charpoly3 (mkM3 2 1 0 1 3 0 0 0 4) 5.
Proof.
  assert (Ho : orthonormal3 (mkM3 0 (-1) 0 1 0 0 0 0 1)).
  { unfold orthonormal3, m3mul, m3transpose, m3id; simpl; f_equal; ring. }
  assert (Hs : symmetric3 (mkM3 2 1 0 1 3 0 0 0 4)).
  { unfold symmetric3; simpl; repeat split. }
  split; [exact Ho|]. split; [exact Hs|].
  apply (proj1 (reexpressInertia_same_eigenvalues _ _ Ho Hs)).
Defined.

(** ** Properties of the pose resolver *)

(** C7.  [getPoseInReferenceFrame (J, J)] returns exactly the matrix of
    [J]'s own [parent_to_joint_origin_transform]; the rest of the graph is
    not consulted. *)
Theorem getPoseInReferenceFrame_self (fuel : nat) (m : UrdfModel)
  (name : string) (j : UrdfJoint) :
  getJoint m name = Some j ->
  getPoseInReferenceFrame (S fuel) m name name = Ret (poseToMatrix (j_origin j)).
Proof. intro Hj. simpl. rewrite String.eqb_refl, Hj. reflexivity. Qed.

Lemma getPoseInReferenceFrame_self_witness :
  getJoint chainModel "B" = Some (chainJoint "B" "L1" "L2") /\
  getPoseInReferenceFrame 1 chainModel "B" "B"
  = Ret (poseToMatrix (j_origin (chainJoint "B" "L1" "L2"))).
Proof.
  split; [reflexivity|].
  apply getPoseInReferenceFrame_self. reflexivity.
Defined.

(** C2, a counterexample.  On the chain [A -> B -> C] of unit translations,
    [resolve (A, B) * resolve (B, C)] is a translation by 4 while
    [resolve (A, C)] is a translation by 3: [B]'s own transform is counted
    twice. *)
Lemma getPoseInReferenceFrame_compose_counterexample :
  exists pAB pBC pAC,
    getPoseInReferenceFrame 5 chainModel "A" "B" = Ret pAB /\
    getPoseInReferenceFrame 5 chainModel "B" "C" = Ret pBC /\
    getPoseInReferenceFrame 5 chainModel "A" "C" = Ret pAC /\
    pAB ** pBC <> pAC.
Proof.
  do 3 eexists. split; [reflexivity|]. split; [reflexivity|]. split; [reflexivity|].
  intro H. apply (f_equal b03) in H.
  cbv -[Rmult Rplus Rminus Ropp Rdiv Rinv IZR] in H.
  ring_simplify in H. lra.
Qed.

(** C2.  When [A <> C] and [B] is the parent joint of [C]'s parent
    link, [resolve (A, C) = resolve (A, B) * T_C], where [T_C] is the matrix
    of [C]'s own origin transform; and, for [B <> C],
    [resolve (B, C) = T_B * T_C]. *)
Theorem getPoseInReferenceFrame_chain (fuel : nat) (m : UrdfModel)
  (a b c : string) (jb jc : UrdfJoint) (pl : UrdfLink) :
  a <> c -> getJoint m c = Some jc ->
  getLink m (j_parent_link jc) = Some pl -> l_parent_joint pl = Some b ->
  getPoseInReferenceFrame (S fuel) m a c
  = (p <- getPoseInReferenceFrame fuel m a b ;; Ret (p ** poseToMatrix (j_origin jc))) /\
  (b <> c -> getJoint m b = Some jb ->
   getPoseInReferenceFrame (S (S fuel)) m b c
   = Ret (poseToMatrix (j_origin jb) ** poseToMatrix (j_origin jc))).
Proof.
  intros Hac Hc Hl Hp.
  assert (Step : forall r f, r <> c ->
            getPoseInReferenceFrame (S f) m r c
            = (p <- getPoseInReferenceFrame f m r b ;; Ret (p ** poseToMatrix (j_origin jc)))).
  { intros r f Hrc. simpl.
    destruct (String.eqb_spec r c) as [E|_]; [contradiction|].
    rewrite Hc, Hl, Hp. reflexivity. }
  split; [apply Step; exact Hac|].
  intros Hbc Hb. rewrite Step by exact Hbc.
  rewrite (getPoseInReferenceFrame_self fuel m b jb Hb). reflexivity.
Qed.

Lemma getPoseInReferenceFrame_chain_witness :
  ("A" <> "C")%string /\
  getPoseInReferenceFrame 3 chainModel "A" "C"
  = (p <- getPoseInReferenceFrame 2 chainModel "A" "B" ;;
     Ret (p ** poseToMatrix (j_origin (chainJoint "C" "L2" "L3")))).
Proof.
  assert (H : ("A" <> "C")%string) by discriminate.
  split; [exact H|].
  apply (proj1 (getPoseInReferenceFrame_chain 2 chainModel "A" "B" "C"
                  (chainJoint "B" "L1" "L2") (chainJoint "C" "L2" "L3")
                  (plainLink "L2" (Some "B") ["C"]) H eq_refl eq_refl eq_refl)).
Defined.

(** ** Properties of the joint factory and the build *)

(** C6.  Every joint-creation operation called with a name already in the
    registry returns a null joint and leaves the whole parser state, hence
    the registry and its first node for that name, unchanged. *)
Theorem create_joint_duplicate_rejected (name : string) (mat : M4)
  (limits : option JointLimits) (st : PState) :
  isRegistered name st = true ->
  createFreeflyerJoint name mat st = Ret (None, st) /\
  createRotationJoint name mat limits st = Ret (None, st) /\
  createContinuousJoint name mat st = Ret (None, st) /\
  createTranslationJoint name mat limits st = Ret (None, st) /\
  createAnchorJoint name mat st = Ret (None, st).
Proof.
  intro H.
  unfold createFreeflyerJoint, createRotationJoint, createContinuousJoint,
    createTranslationJoint, createAnchorJoint, pbind, pget; simpl.
  rewrite H. repeat split.
Qed.

Lemma create_joint_duplicate_rejected_witness :
  let st := mkPState [("j1", mkNode "j1" RotationNode m4id [])] None [] [] [] [] [] None in
  isRegistered "j1" st = true /\
  createRotationJoint "j1" m4id None st = Ret (None, st).
Proof.
  intro st.
  assert (H : isRegistered "j1" st = true) by reflexivity.
  split; [exact H|].
  apply (proj1 (proj2 (create_joint_duplicate_rejected "j1" m4id None st H))).
Defined.

(** C8.  On a document with one link [base_link] and no [gaze]
    link, [setSpecialJoints] only logs the missing gaze joint, but
    [fillGaze] then dereferences [jointsMap_.end ()]: the build has
    undefined behaviour instead of completing with the gaze unset. *)
Theorem parseStream_missing_gaze_faults :
  parseStream 20 loadAll (Some singleLinkModel) initialPState
  = Fault "gaze->second on jointsMap_.end ()".
Proof. vm_compute. reflexivity. Qed.

(** C3.  A document joint named [base_joint] clashes with the
    synthesized root joint: [createAnchorJoint] rejects it, but
    [parseJoints] ignores the null result and the build returns a robot
    whose registry holds only the root free-flyer under that name. *)
Theorem parseStream_duplicate_name_not_fatal :
  exists r st,
    parseStream 20 loadAll (Some rootNameClashModel) initialPState = Ret (Some r, st) /\
    map fst (jointsMap st) = ["base_joint"; "gaze_joint"] /\
    map (fun e => n_kind (snd e)) (jointsMap st) = [FreeflyerNode; AnchorNode].
Proof.
  do 2 eexists. split; [vm_compute; reflexivity|]. split; vm_compute; reflexivity.
Qed.

(** C4, a counterexample.  With [a_link] (meshes [a.obj] / [b.obj]) and its
    sibling [z_link] (a box) the build returns no robot, and [z_joint], which
    comes after [a_joint] in the registry, gets neither a body nor a solid. *)
Lemma parseStream_mesh_mismatch_counterexample :
  exists st,
    parseStream 20 loadAll (Some meshMismatchModel) initialPState = Ret (None, st) /\
    lookup "z_joint" (bodies st) = None /\ solids st = [].
Proof.
  eexists. split; [vm_compute; reflexivity|]. split; vm_compute; reflexivity.
Qed.

Lemma parseJointsLoop_true_types (fuel : nat) (m : UrdfModel)
  (l : list (string * UrdfJoint)) (st st' : PState) :
  parseJointsLoop fuel m l st = Ret (true, st') ->
  forall name j, In (name, j) l -> j_type j <> UNKNOWN /\ j_type j <> PLANAR.
Proof.
  revert st. induction l as [|[name0 j0] l IH]; intros st H name j Hin; [destruct Hin|].
  simpl in H. unfold pbind, plift in H.
  outcome_cases (getPoseInReferenceFrame fuel m "base_footprint_joint" name0).
  simpl in H. destruct (getJoint m name0) as [joint|]; [|discriminate].
  destruct (j_type j0) eqn:Ht; unfold pret in H; try discriminate;
    match type of H with
    | obind (?c _) _ = _ =>
      let a := fresh "a" in let s := fresh "s" in
      destruct (c st) as [[a s]|s|s|] eqn:E; simpl in H; try discriminate
    | _ => idtac
    end;
    (destruct Hin as [Heq|Hin];
     [injection Heq as <- <-; rewrite Ht; split; discriminate
     | eapply IH; eassumption]).
Qed.

Lemma parseJoints_true_types (fuel : nat) (m : UrdfModel) (st st' : PState) :
  parseJoints fuel m st = Ret (true, st') ->
  forall name j, In (name, j) (joints_ m) -> j_type j <> UNKNOWN /\ j_type j <> PLANAR.
Proof.
  unfold parseJoints, pbind. intro H.
  destruct (createFreeflyerJoint "base_joint" m4id st) as [[[r|] s]|s|s|];
    simpl in H; try discriminate.
  unfold pget, pput in H; simpl in H.
  eapply parseJointsLoop_true_types; exact H.
Qed.

Lemma existsb_eqb_false (x : string) (l : list string) :
  existsb (String.eqb x) l = false -> ~ In x l.
Proof.
  intros H Hin. assert (E : existsb (String.eqb x) l = true).
  { apply existsb_exists. exists x. split; [exact Hin | apply String.eqb_refl]. }
  congruence.
Qed.

Lemma actuatedJointsLoop_spec (l : list (string * UrdfJoint)) (reg : list (string * Node))
  (acc out : list string) :
  actuatedJointsLoop l reg acc = Ret out -> NoDup acc ->
  NoDup out /\ forall x, In x out -> In x acc \/ actuatedEntry l reg x.
Proof.
  revert acc. induction l as [|[name j] l IH]; intros acc H Hnd.
  - simpl in H. injection H as <-. split; [exact Hnd | intros x Hx; left; exact Hx].
  - simpl in H.
    assert (Lift : forall acc', (forall x, In x acc' -> In x acc \/ actuatedEntry ((name, j) :: l) reg x) ->
              NoDup acc' -> actuatedJointsLoop l reg acc' = Ret out ->
              NoDup out /\ forall x, In x out -> In x acc \/ actuatedEntry ((name, j) :: l) reg x).
    { intros acc' Hacc Hnd' H'. destruct (IH acc' H' Hnd') as [Hn Hx].
      split; [exact Hn|]. intros x Hin. destruct (Hx x Hin) as [Ha|(n' & j' & nd & Hi & R)].
      - apply Hacc; exact Ha.
      - right. exists n', j', nd. split; [right; exact Hi | exact R]. }
    destruct (j_type j) eqn:Ht;
      try (apply (Lift acc); [intros x Hx; left; exact Hx | exact Hnd | exact H]);
      (destruct (lookup name reg) as [child|] eqn:Hl; [|discriminate];
       destruct (existsb (String.eqb (n_name child)) acc) eqn:He;
       [ apply (Lift acc); [intros x Hx; left; exact Hx | exact Hnd | exact H]
       | apply (Lift (acc ++ [n_name child])%list); [| | exact H]]);
      try (intros x Hx; apply in_app_or in Hx; destruct Hx as [Hx|[Hx|[]]];
           [left; exact Hx
           | right; exists name, j, child; subst x;
             repeat split; try (left; reflexivity); try exact Hl; rewrite Ht; discriminate]);
      (apply NoDup_app; [exact Hnd | constructor; [intros []| constructor] |];
       intros x Hx [Hy|[]]; subst x; exact (existsb_eqb_false _ _ He Hx)).
Qed.

Lemma actuatedJointsLoop_throw (l : list (string * UrdfJoint)) (reg : list (string * Node))
  (acc : list string) :
  (exists name j, In (name, j) l /\ isActuatedType (j_type j) = true /\ lookup name reg = None) ->
  exists msg, actuatedJointsLoop l reg acc = Throw msg.
Proof.
  revert acc. induction l as [|[name0 j0] l IH]; intros acc (name & j & Hin & Ha & Hl).
  - destruct Hin.
  - destruct Hin as [Heq|Hin].
    + injection Heq as -> ->. simpl.
      destruct (j_type j); try discriminate; rewrite Hl; eexists; reflexivity.
    + assert (Hrest : forall acc', exists msg, actuatedJointsLoop l reg acc' = Throw msg)
        by (intro acc'; apply IH; exists name, j; auto).
      simpl. destruct (j_type j0); try apply Hrest;
        destruct (lookup name0 reg); try (eexists; reflexivity);
        destruct existsb; apply Hrest.
Qed.

(** C10.  For a model whose joints [parseJoints] accepted, [actuatedJoints]
    returns a list without repetition whose every entry is the registered
    node of an input joint of kind [REVOLUTE], [CONTINUOUS] or [PRISMATIC];
    and when such an input joint has no registered node it throws. *)
Theorem actuatedJoints_spec (fuel : nat) (m : UrdfModel) (st0 st : PState) :
  (exists st1, parseJoints fuel m st0 = Ret (true, st1)) ->
  (forall out, actuatedJoints m st = Ret out ->
     NoDup out /\
     forall x, In x out ->
       exists name j node, In (name, j) (joints_ m) /\
         (j_type j = REVOLUTE \/ j_type j = CONTINUOUS \/ j_type j = PRISMATIC) /\
         lookup name (jointsMap st) = Some node /\ n_name node = x) /\
  ((exists name j, In (name, j) (joints_ m) /\ isActuatedType (j_type j) = true /\
                   lookup name (jointsMap st) = None) ->
   exists msg, actuatedJoints m st = Throw msg).
Proof.
  intros [st1 Hp]. split.
  - intros out H.
    destruct (actuatedJointsLoop_spec _ _ [] out H (NoDup_nil _)) as [Hn Hx].
    split; [exact Hn|].
    intros x Hin. destruct (Hx x Hin) as [[]|(name & j & node & Hi & Hu & Hfl & Hfi & Hl & Hx')].
    exists name, j, node. split; [exact Hi|]. split; [|split; assumption].
    destruct (parseJoints_true_types _ _ _ _ Hp name j Hi) as [_ Hpl].
    destruct (j_type j); auto; contradiction.
  - apply actuatedJointsLoop_throw.
Qed.

Lemma actuatedJoints_spec_witness :
  (exists st1, parseJoints 20 revoluteModel initialPState = Ret (true, st1)) /\
  (forall out, actuatedJoints revoluteModel initialPState = Ret out -> NoDup out).
Proof.
  assert (H : exists st1, parseJoints 20 revoluteModel initialPState = Ret (true, st1))
    by (eexists; cbv -[sqrt Rabs Rlt_dec Rmult Rplus Rminus Ropp Rdiv Rinv IZR]; reflexivity).
  split; [exact H|].
  intros out Ho. apply (proj1 (actuatedJoints_spec 20 revoluteModel initialPState initialPState H) out Ho).
Defined.

Lemma lookup_In {A : Type} (k : string) (v : A) (l : list (string * A)) :
  In (k, v) l -> exists v', lookup k l = Some v'.
Proof.
  induction l as [|[k' v'] l IH]; intros Hin; [destruct Hin|].
  simpl. destruct (String.eqb k k') eqn:E; [eexists; reflexivity|].
  destruct Hin as [Heq|Hin].
  - injection Heq as -> ->. rewrite String.eqb_refl in E. discriminate.
  - apply IH; exact Hin.
Qed.

Lemma getPose_no_fault (fuel : nat) (m : UrdfModel) (ref cur : string) :
  parentJointsKnown m -> (exists j, getJoint m cur = Some j) ->
  getPoseInReferenceFrame fuel m ref cur = NoFuel \/
  exists p, getPoseInReferenceFrame fuel m ref cur = Ret p.
Proof.
  intro Hw. revert cur. induction fuel as [|fuel IH]; intros cur [jc Hc]; [left; reflexivity|].
  simpl. rewrite Hc. destruct (String.eqb ref cur); [right; eexists; reflexivity|].
  destruct (getLink m (j_parent_link jc)) as [pl|] eqn:Hl; [|right; eexists; reflexivity].
  destruct (l_parent_joint pl) as [pj|] eqn:Hp; [|right; eexists; reflexivity].
  destruct (IH pj (Hw _ _ _ Hl Hp)) as [E|[p E]]; rewrite E; [left | right; eexists]; reflexivity.
Qed.

Lemma parseJointsLoop_planar (fuel : nat) (m : UrdfModel) (l : list (string * UrdfJoint))
  (st : PState) :
  parentJointsKnown m -> (forall name j, In (name, j) l -> exists j', getJoint m name = Some j') ->
  (exists name j, In (name, j) l /\ j_type j = PLANAR) ->
  parseJointsLoop fuel m l st = NoFuel \/ exists st', parseJointsLoop fuel m l st = Ret (false, st').
Proof.
  intros Hw. revert st. induction l as [|[name0 j0] l IH]; intros st Hj (name & j & Hin & Hpl);
    [destruct Hin|].
  simpl. unfold pbind, plift.
  destruct (getPose_no_fault fuel m "base_footprint_joint" name0 Hw (Hj _ _ (or_introl eq_refl)))
    as [E|[p E]]; rewrite E; [left; reflexivity|]. simpl.
  destruct (Hj _ _ (or_introl eq_refl)) as [joint Hg]. rewrite Hg.
  destruct Hin as [Heq|Hin].
  - injection Heq as -> ->. rewrite Hpl. right. eexists. reflexivity.
  - assert (Rest : forall st', parseJointsLoop fuel m l st' = NoFuel \/
                     exists st'', parseJointsLoop fuel m l st' = Ret (false, st''))
      by (intro st'; apply IH; [intros n' j' H'; apply (Hj n' j'); right; exact H'
                               | exists name, j; auto]).
    destruct (j_type j0);
      try (right; eexists; reflexivity);
      cbn [pbind pget pret obind registerJoint createRotationJoint createContinuousJoint
           createTranslationJoint createFreeflyerJoint createAnchorJoint];
      destruct (isRegistered name0 st); apply Rest.
Qed.

Lemma findSpecialJoint_jointsMap (m : UrdfModel) (repName role : string) (st : PState) :
  jointsMap (findSpecialJoint m repName role st) = jointsMap st.
Proof.
  unfold findSpecialJoint.
  destruct (getLink m repName) as [l|]; [destruct (l_parent_joint l)|]; reflexivity.
Qed.

Lemma findSpecialJoints_jointsMap (m : UrdfModel) (st : PState) :
  jointsMap (findSpecialJoints m st) = jointsMap st.
Proof.
  unfold findSpecialJoints. rewrite !findSpecialJoint_jointsMap. reflexivity.
Qed.

(** When the model has a [PLANAR] joint whose links are
    well formed, [parseStream] returns no robot (or runs out of recursion
    depth while resolving a pose): the switch of [parseJoints] returns false
    on [PLANAR] and [parseStream] then resets the robot. *)
Lemma parseStream_planar_no_robot (fuel : nat) (load : Loader) (m : UrdfModel) (st : PState) :
  parentJointsKnown m ->
  (exists name j, In (name, j) (joints_ m) /\ j_type j = PLANAR) ->
  parseStream fuel load (Some m) st = NoFuel \/
  exists st', parseStream fuel load (Some m) st = Ret (None, st').
Proof.
  intros Hw Hpl. unfold parseStream. cbn [pbind pget pput obind].
  set (st1 := findSpecialJoints m _).
  assert (Hj : jointsMap st1 = []) by (unfold st1; rewrite findSpecialJoints_jointsMap; reflexivity).
  clearbody st1. unfold parseJoints, createFreeflyerJoint, isRegistered.
  cbv beta iota delta [pbind pget pput pret obind registerJoint]. rewrite Hj.
  cbv beta iota delta [pbind pget pput pret obind registerJoint n_name lookup].
  match goal with |- context [parseJointsLoop fuel m (joints_ m) ?s] =>
    destruct (parseJointsLoop_planar fuel m (joints_ m) s Hw) as [E|[st' E]] end.
  - intros name j Hin. exact (lookup_In name j (joints_ m) Hin).
  - exact Hpl.
  - rewrite E. left. reflexivity.
  - rewrite E. right. eexists.
    cbv beta iota zeta delta [negb obind resetRobot pbind pget pput pret]. reflexivity.
Qed.

Lemma parseStream_planar_no_robot_witness :
  parentJointsKnown planarJointModel /\
  (exists name j, In (name, j) (joints_ planarJointModel) /\ j_type j = PLANAR) /\
  (parseStream 20 loadAll (Some planarJointModel) initialPState = NoFuel \/
   exists st', parseStream 20 loadAll (Some planarJointModel) initialPState = Ret (None, st')).
Proof.
  assert (Hw : parentJointsKnown planarJointModel).
  { intros ln l pj Hl Hp. unfold getLink in Hl. simpl in Hl.
    destruct (String.eqb ln "base_link"); [injection Hl as <-; discriminate|].
    destruct (String.eqb ln "p_link"); [|discriminate].
    injection Hl as <-. injection Hp as <-. eexists. reflexivity. }
  assert (Hpl : exists name j, In (name, j) (joints_ planarJointModel) /\ j_type j = PLANAR)
    by (do 2 eexists; split; [left; reflexivity | reflexivity]).
  split; [exact Hw|]. split; [exact Hpl|].
  exact (parseStream_planar_no_robot 20 loadAll planarJointModel initialPState Hw Hpl).
Defined.

(** ** Further properties of the parser *)

Ltac destruct_inner_Rlt :=
  match goal with
  | |- context [Rlt_dec ?a ?b] =>
    lazymatch a with context [Rlt_dec _ _] => fail | _ =>
    lazymatch b with context [Rlt_dec _ _] => fail | _ =>
    destruct (Rlt_dec a b) end end
  end.

Lemma smallestComponent_lt3 (x : V3) : (smallestComponent x < 3)%nat.
Proof.
  unfold smallestComponent.
  repeat (simpl; destruct_inner_Rlt); lia.
Qed.

Lemma smallestComponent_le (x : V3) (i : nat) :
  (i < 3)%nat -> Rabs (v3get x (smallestComponent x)) <= Rabs (v3get x i).
Proof.
  intro Hi. unfold smallestComponent.
  destruct i as [|[|[|i]]]; [| | |lia]; simpl;
  repeat (simpl; destruct_inner_Rlt); simpl in *; lra.
Qed.

Lemma smallestComponent_sq (x : V3) :
  norm2 x = 1 ->
  v3get x (smallestComponent x) * v3get x (smallestComponent x) <= 1/3.
Proof.
  intro Hx. set (k := smallestComponent x).
  assert (H : forall i, (i < 3)%nat -> v3get x k * v3get x k <= v3get x i * v3get x i).
  { intros i Hi. pose proof (smallestComponent_le x i Hi) as Hle. fold k in Hle.
    rewrite <- !Rsqr_def. apply Rsqr_le_abs_1. exact Hle. }
  pose proof (H 0%nat ltac:(lia)). pose proof (H 1%nat ltac:(lia)). pose proof (H 2%nat ltac:(lia)).
  unfold norm2, dot in Hx. simpl in *. lra.
Qed.

Lemma det3_frame (x e : V3) :
  let z := cross x e in let y := cross z x in
  det3 (mkM3 (vx x) (vx y) (vx z) (vy x) (vy y) (vy z) (vz x) (vz y) (vz z))
  = norm2 x * norm2 z.
Proof. destruct x, e; unfold det3, norm2, dot, cross; simpl; ring. Qed.

Lemma det3_frameBasis (a : V3) :
  norm2 a <> 0 ->
  det3 (frameBasis a)
  = 1 - v3get (normalize a) (smallestComponent (normalize a))
        * v3get (normalize a) (smallestComponent (normalize a)).
Proof.
  intro Hn. unfold frameBasis; cbv zeta. rewrite det3_frame.
  rewrite norm2_cross, norm2_normalize, norm2_basis, dot_basis by exact Hn. ring.
Qed.

Lemma mkM4_eq (x00 x01 x02 x03 x10 x11 x12 x13 x20 x21 x22 x23 x30 x31 x32 x33
                y00 y01 y02 y03 y10 y11 y12 y13 y20 y21 y22 y23 y30 y31 y32 y33 : R) :
  x00 = y00 -> x01 = y01 -> x02 = y02 -> x03 = y03 ->
  x10 = y10 -> x11 = y11 -> x12 = y12 -> x13 = y13 ->
  x20 = y20 -> x21 = y21 -> x22 = y22 -> x23 = y23 ->
  x30 = y30 -> x31 = y31 -> x32 = y32 -> x33 = y33 ->
  mkM4 x00 x01 x02 x03 x10 x11 x12 x13 x20 x21 x22 x23 x30 x31 x32 x33
  = mkM4 y00 y01 y02 y03 y10 y11 y12 y13 y20 y21 y22 y23 y30 y31 y32 y33.
Proof. intros; subst; reflexivity. Qed.

Ltac m4_unfold := cbv -[Rmult Rplus Rminus Ropp Rdiv Rinv IZR].

Lemma m4mul_assoc (a b c : M4) : (a ** b) ** c = a ** (b ** c).
Proof. destruct a, b, c; m4_unfold; apply mkM4_eq; ring. Qed.

Lemma m4mul_id_l (a : M4) : m4id ** a = a.
Proof. destruct a; m4_unfold; apply mkM4_eq; ring. Qed.

Lemma m4mul_id_r (a : M4) : a ** m4id = a.
Proof. destruct a; m4_unfold; apply mkM4_eq; ring. Qed.

Lemma m4inverse_r (m : M4) :
  lastRowUnit m -> det3 (rot3 m) <> 0 -> m ** m4inverse m = m4id.
Proof.
  destruct m; unfold lastRowUnit; simpl; intros (-> & -> & -> & ->) Hd.
  unfold rot3, m3get, det3 in Hd; simpl in Hd.
  m4_unfold. apply mkM4_eq; field; exact Hd.
Qed.

Lemma m4inverse_l (m : M4) :
  lastRowUnit m -> det3 (rot3 m) <> 0 -> m4inverse m ** m = m4id.
Proof.
  destruct m; unfold lastRowUnit; simpl; intros (-> & -> & -> & ->) Hd.
  unfold rot3, m3get, det3 in Hd; simpl in Hd.
  m4_unfold. apply mkM4_eq; field; exact Hd.
Qed.

Lemma mkM3_eq (x00 x01 x02 x10 x11 x12 x20 x21 x22
               y00 y01 y02 y10 y11 y12 y20 y21 y22 : R) :
  x00 = y00 -> x01 = y01 -> x02 = y02 ->
  x10 = y10 -> x11 = y11 -> x12 = y12 ->
  x20 = y20 -> x21 = y21 -> x22 = y22 ->
  mkM3 x00 x01 x02 x10 x11 x12 x20 x21 x22 = mkM3 y00 y01 y02 y10 y11 y12 y20 y21 y22.
Proof. intros; subst; reflexivity. Qed.

(** [poseToMatrix] of a pose with a nonzero quaternion is a rigid transform:
    its 3x3 block is orthonormal with determinant 1, its translation column is
    the pose's position and its last row is [(0, 0, 0, 1)]. *)
Theorem poseToMatrix_rigid (p : Pose) :
  quatNorm2 (rotation p) <> 0 ->
  orthonormal3 (rot3 (poseToMatrix p)) /\ det3 (rot3 (poseToMatrix p)) = 1 /\
  trans3 (poseToMatrix p) = position p /\ lastRowUnit (poseToMatrix p).
Proof.
  destruct p as [[px py pz] [x y z w]]. unfold quatNorm2; simpl. intro Hd.
  repeat split.
  - unfold orthonormal3. m4_unfold. apply mkM3_eq; field; exact Hd.
  - m4_unfold. field. exact Hd.
Qed.

(** [poseToMatrix] does not depend on the scale of the quaternion: a
    quaternion multiplied by a nonzero factor gives the same matrix. *)
Theorem poseToMatrix_scale_invariant (p : Pose) (c : R) :
  c <> 0 -> quatNorm2 (rotation p) <> 0 ->
  poseToMatrix (mkPose (position p) (quatScale c (rotation p))) = poseToMatrix p.
Proof.
  destruct p as [[px py pz] [x y z w]]. unfold quatNorm2, quatScale; simpl. intros Hc Hd.
  assert (Hd' : c * x * (c * x) + c * y * (c * y) + c * z * (c * z) + c * w * (c * w) <> 0).
  { replace (c * x * (c * x) + c * y * (c * y) + c * z * (c * z) + c * w * (c * w))
      with ((c * c) * (x * x + y * y + z * z + w * w)) by ring.
    apply Rmult_integral_contrapositive_currified; [nra | exact Hd]. }
  m4_unfold. apply mkM4_eq; try reflexivity; field; split; assumption.
Qed.

Lemma mkV3_eq (x0 x1 x2 y0 y1 y2 : R) :
  x0 = y0 -> x1 = y1 -> x2 = y2 -> mkV3 x0 x1 x2 = mkV3 y0 y1 y2.
Proof. intros; subst; reflexivity. Qed.

Lemma frameBasis_det_pos (a : V3) :
  norm2 a <> 0 ->
  let x := normalize a in
  2/3 <= 1 - v3get x (smallestComponent x) * v3get x (smallestComponent x) /\
  det3 (frameBasis a) = 1 - v3get x (smallestComponent x) * v3get x (smallestComponent x).
Proof.
  intros Hn x. split.
  - pose proof (smallestComponent_sq x (norm2_normalize a Hn)). lra.
  - apply det3_frameBasis. exact Hn.
Qed.

(** For a nonzero axis, the first column of [normalizeFrameOrientation] is the
    normalized axis, the three columns are pairwise orthogonal, the second and
    third have the same squared norm [s >= 2/3], the determinant is [s], the
    translation is zero and the last row is [(0, 0, 0, 1)]. *)
Theorem normalizeFrameOrientation_frame (a : V3) :
  norm2 a <> 0 ->
  let n := normalizeFrameOrientation (Some a) in
  let r := rot3 n in
  let x := normalize a in
  let s := 1 - v3get x (smallestComponent x) * v3get x (smallestComponent x) in
  m3col r 0 = x /\ norm2 (m3col r 0) = 1 /\
  dot (m3col r 0) (m3col r 1) = 0 /\ dot (m3col r 0) (m3col r 2) = 0 /\
  dot (m3col r 1) (m3col r 2) = 0 /\
  norm2 (m3col r 1) = s /\ norm2 (m3col r 2) = s /\ 2/3 <= s /\ det3 r = s /\
  trans3 n = mkV3 0 0 0 /\ lastRowUnit n.
Proof.
  intros Hn n r x s. subst n r. rewrite rot3_normalizeFrameOrientation.
  destruct (frameBasis_shape a Hn) as (H0 & H1 & H2 & H3 & H4 & H5 & H6).
  destruct (frameBasis_det_pos a Hn) as (H7 & H8).
  repeat split; try assumption; reflexivity.
Qed.

Lemma reexpressInertia_charpoly (r a : M3) (l : R) :
  det3 r <> 0 ->
  charpoly3 (reexpressInertia (homogeneous r (mkV3 0 0 0)) a) l = charpoly3 a l.
Proof.
  intro Hd. unfold charpoly3.
  rewrite reexpressInertia_block, conj_sub_scale by (apply inv3_mul_l; exact Hd).
  rewrite !det3_mul.
  replace (det3 (inv3 r) * det3 (m3sub a (m3scale l m3id)) * det3 r)
    with (det3 (inv3 r) * det3 r * det3 (m3sub a (m3scale l m3id))) by ring.
  rewrite det3_inv3 by exact Hd. ring.
Qed.

Lemma reexpressCom_roundtrip (r : M3) (c : V3) :
  det3 r <> 0 ->
  trans3 (homogeneous r (mkV3 0 0 0)
          ** homogeneous m3id (reexpressCom (homogeneous r (mkV3 0 0 0)) c)) = c.
Proof.
  destruct r, c. unfold det3; simpl. intro Hd.
  m4_unfold. apply mkV3_eq; field; exact Hd.
Qed.

Lemma reexpressInertia_roundtrip (r a : M3) :
  det3 r <> 0 ->
  rot3 (homogeneous r (mkV3 0 0 0)
        ** homogeneous (reexpressInertia (homogeneous r (mkV3 0 0 0)) a) (mkV3 0 0 0)
        ** m4inverse (homogeneous r (mkV3 0 0 0))) = a.
Proof.
  intro Hd. rewrite reexpressInertia_block.
  destruct r, a. unfold det3 in Hd; simpl in Hd.
  m4_unfold. apply mkM3_eq; field; exact Hd.
Qed.

(** When the parent joint axes are nonzero, the inertial data computed for a
    link with a declared inertial keep the declared mass, and the inertia
    tensor has the characteristic polynomial of the declared tensor, hence the
    same principal moments. *)
Theorem linkInertia_principal_moments (m : UrdfModel) (name : string) (link : UrdfLink)
  (inertial : Inertial) (mass : R) (com : V3) (im : M3) :
  l_inertial link = Some inertial ->
  (forall pj, parentJointType m link = Ret pj -> norm2 (j_axis pj) <> 0) ->
  linkInertia m name link = Ret (mass, com, im) ->
  mass = in_mass inertial /\
  forall l, charpoly3 im l = charpoly3 (declaredInertia inertial) l.
Proof.
  intros Hi Hax H. unfold linkInertia in H. rewrite Hi in H.
  destruct (String.eqb name "base_joint").
  - injection H as <- <- <-. split; reflexivity.
  - destruct (parentJointType m link) as [pj| | |] eqn:Ep; simpl in H; try discriminate.
    destruct (isActuatedType (j_type pj)); injection H as <- <- <-; split; try reflexivity.
    intro l. unfold normalizeFrameOrientation.
    apply reexpressInertia_charpoly.
    destruct (frameBasis_det_pos (j_axis pj) (Hax pj eq_refl)) as [Hs Hd].
    rewrite Hd. lra.
Qed.

Lemma m4id_roundtrip (c : V3) (a : M3) :
  trans3 (m4id ** homogeneous m3id c) = c /\
  rot3 (m4id ** homogeneous a (mkV3 0 0 0) ** m4inverse m4id) = a.
Proof.
  destruct c, a. split.
  - m4_unfold. apply mkV3_eq; ring.
  - m4_unfold. apply mkM3_eq; field.
Qed.

(** The centre of mass and the inertia tensor computed for a link are the
    declared ones expressed in a frame [n], the identity or the normalized frame
    of an actuated parent joint: mapped back through [n] they give the declared
    values. *)
Theorem linkInertia_roundtrip (m : UrdfModel) (name : string) (link : UrdfLink)
  (inertial : Inertial) (mass : R) (com : V3) (im : M3) :
  l_inertial link = Some inertial ->
  (forall pj, parentJointType m link = Ret pj -> norm2 (j_axis pj) <> 0) ->
  linkInertia m name link = Ret (mass, com, im) ->
  exists n,
    (n = m4id \/
     exists pj, parentJointType m link = Ret pj /\ isActuatedType (j_type pj) = true /\
                n = normalizeFrameOrientation (Some (j_axis pj))) /\
    mass = in_mass inertial /\
    trans3 (n ** homogeneous m3id com) = position (in_origin inertial) /\
    rot3 (n ** homogeneous im (mkV3 0 0 0) ** m4inverse n) = declaredInertia inertial.
Proof.
  intros Hi Hax H. unfold linkInertia in H. rewrite Hi in H.
  destruct (String.eqb name "base_joint").
  - injection H as <- <- <-. exists m4id.
    destruct (m4id_roundtrip (position (in_origin inertial)) (declaredInertia inertial)) as [H1 H2].
    repeat split; auto.
  - destruct (parentJointType m link) as [pj| | |] eqn:Ep; simpl in H; try discriminate.
    destruct (isActuatedType (j_type pj)) eqn:Ea; injection H as <- <- <-.
    + exists (normalizeFrameOrientation (Some (j_axis pj))).
      destruct (frameBasis_det_pos (j_axis pj) (Hax pj eq_refl)) as [Hs Hd].
      assert (Hd' : det3 (frameBasis (j_axis pj)) <> 0) by (rewrite Hd; lra).
      split; [right; exists pj; auto|]. split; [reflexivity|]. split.
      * apply reexpressCom_roundtrip; exact Hd'.
      * apply (reexpressInertia_roundtrip _ (declaredInertia inertial)); exact Hd'.
    + exists m4id.
      destruct (m4id_roundtrip (position (in_origin inertial)) (declaredInertia inertial)) as [H1 H2].
      repeat split; auto.
Qed.

Lemma lastRowUnit_homogeneous (r : M3) (t : V3) : lastRowUnit (homogeneous r t).
Proof. unfold lastRowUnit; cbv -[IZR]; repeat split; reflexivity. Qed.

Lemma lastRowUnit_mul (a b : M4) : lastRowUnit a -> lastRowUnit b -> lastRowUnit (a ** b).
Proof.
  destruct a, b; unfold lastRowUnit; simpl.
  intros (-> & -> & -> & ->) (-> & -> & -> & ->).
  m4_unfold. repeat split; ring.
Qed.

Lemma homogeneous_columns (x : M4) :
  lastRowUnit x ->
  homogeneous (fromColumns (m3col (rot3 x) 0) (m3col (rot3 x) 1) (m3col (rot3 x) 2))
              (trans3 x) = x.
Proof.
  destruct x; unfold lastRowUnit; simpl. intros (-> & -> & -> & ->).
  m4_unfold. apply mkM4_eq; reflexivity.
Qed.

(** The hand frame computed by [computeHandsInformation] is the hand's pose in
    the wrist frame: the wrist pose composed with the frame built from the
    centre and the thumb, forefinger and palm axes gives the hand pose back. *)
Theorem computeHandsInformation_roundtrip (hand wrist : Node) :
  lastRowUnit (n_pose hand) -> lastRowUnit (n_pose wrist) ->
  det3 (rot3 (n_pose wrist)) <> 0 ->
  hd_wrist (computeHandsInformation hand wrist) = n_name wrist /\
  n_pose wrist
    ** homogeneous (fromColumns (hd_thumb (computeHandsInformation hand wrist))
                                (hd_foreFinger (computeHandsInformation hand wrist))
                                (hd_palm (computeHandsInformation hand wrist)))
                   (hd_center (computeHandsInformation hand wrist))
  = n_pose hand.
Proof.
  intros Hh Hw Hd. split; [reflexivity|].
  unfold computeHandsInformation; simpl.
  rewrite homogeneous_columns
    by (apply lastRowUnit_mul; [apply lastRowUnit_homogeneous | exact Hh]).
  rewrite <- m4mul_assoc, m4inverse_r by assumption.
  apply m4mul_id_l.
Qed.

(** The ankle position computed in the foot frame, mapped back through the foot
    pose, is the ankle's position. *)
Theorem computeAnklePositionInLocalFrame_roundtrip (foot ankle : Node) :
  lastRowUnit (n_pose foot) -> lastRowUnit (n_pose ankle) ->
  det3 (rot3 (n_pose foot)) <> 0 ->
  trans3 (n_pose foot ** homogeneous m3id (computeAnklePositionInLocalFrame foot ankle))
  = trans3 (n_pose ankle).
Proof.
  intros Hf Ha Hd. unfold computeAnklePositionInLocalFrame.
  assert (Hx : lastRowUnit (m4inverse (n_pose foot) ** n_pose ankle))
    by (apply lastRowUnit_mul; [apply lastRowUnit_homogeneous | exact Ha]).
  transitivity (trans3 (n_pose foot ** (m4inverse (n_pose foot) ** n_pose ankle))).
  - revert Hx. generalize (m4inverse (n_pose foot) ** n_pose ankle). intros x Hx.
    destruct (n_pose foot), x.
    unfold lastRowUnit in Hx; simpl in Hx. destruct Hx as (-> & -> & -> & ->).
    m4_unfold. apply mkV3_eq; ring.
  - rewrite <- m4mul_assoc, m4inverse_r by assumption. rewrite m4mul_id_l. reflexivity.
Qed.

Lemma string_compare_refl (s : string) : String.compare s s = Eq.
Proof.
  pose proof (String.compare_antisym s s) as H.
  destruct (String.compare s s); simpl in H; congruence.
Qed.

Lemma lookup_map_insert_same {A : Type} (k : string) (v : A) (l : list (string * A)) :
  lookup k (map_insert k v l) = Some v.
Proof.
  induction l as [|[k' v'] l IH]; simpl; [rewrite String.eqb_refl; reflexivity|].
  destruct (String.compare k k') eqn:C; simpl; try (rewrite String.eqb_refl; reflexivity).
  destruct (String.eqb_spec k k') as [->|_]; [rewrite string_compare_refl in C; discriminate|].
  exact IH.
Qed.

Lemma lookup_map_insert_other {A : Type} (k k2 : string) (v : A) (l : list (string * A)) :
  k2 <> k -> lookup k2 (map_insert k v l) = lookup k2 l.
Proof.
  intro Hne. induction l as [|[k' v'] l IH]; simpl.
  - destruct (String.eqb_spec k2 k); [contradiction | reflexivity].
  - destruct (String.compare k k') eqn:C; simpl.
    + apply String.compare_eq_iff in C. subst k'.
      destruct (String.eqb_spec k2 k); [contradiction | reflexivity].
    + destruct (String.eqb_spec k2 k); [contradiction | reflexivity].
    + rewrite IH. reflexivity.
Qed.

Lemma isRegistered_registerJoint (name n : string) (node : Node) (st st' : PState) :
  registerJoint name node st = Ret (tt, st') ->
  isRegistered n st' = true <-> isRegistered n st = true \/ n = name.
Proof.
  unfold registerJoint, isRegistered. intro H. injection H as <-. simpl.
  destruct (String.eqb_spec n name) as [->|Hne].
  - rewrite lookup_map_insert_same. tauto.
  - rewrite lookup_map_insert_other by exact Hne.
    destruct (lookup n (jointsMap st)); intuition discriminate.
Qed.

(** A [create*] call with a name that is not registered returns a new node
    with that name, kind and position, registers it under the name, and leaves
    the other registry entries and the rest of the state unchanged. *)
Theorem create_joint_registers (name : string) (mat : M4) (limits : option JointLimits)
  (st : PState) :
  isRegistered name st = false ->
  registersAs name mat FreeflyerNode (createFreeflyerJoint name mat) st /\
  registersAs name mat RotationNode (createRotationJoint name mat limits) st /\
  registersAs name mat RotationNode (createContinuousJoint name mat) st /\
  registersAs name mat TranslationNode (createTranslationJoint name mat limits) st /\
  registersAs name mat AnchorNode (createAnchorJoint name mat) st.
Proof.
  intro H.
  unfold registersAs, createFreeflyerJoint, createRotationJoint, createContinuousJoint,
    createTranslationJoint, createAnchorJoint, pbind, pget, pret, registerJoint, findJoint.
  simpl. rewrite H. simpl.
  repeat split; do 2 eexists; (split; [reflexivity|]); simpl;
    (split; [reflexivity|]); (split; [reflexivity|]); (split; [reflexivity|]);
    (split; [apply lookup_map_insert_same|]);
    (split; [intros n Hn; apply lookup_map_insert_other; exact Hn | reflexivity]).
Qed.

Lemma createStep_of (name : string) (kind : NodeKind) (settings : list BoundSetting)
  (mat : M4) :
  createStep name
    (st <~ pget ;;
     if isRegistered name st then pret None
     else let joint := mkNode name kind mat settings in
          registerJoint name joint ;;; pret (Some joint)).
Proof.
  intros st r st1. unfold pbind, pget, pret. simpl.
  destruct (isRegistered name st) eqn:Hr.
  - intro H. injection H as _ <-. split; [|reflexivity].
    intro n. destruct (String.eqb_spec n name) as [->|]; intuition.
  - simpl. intro H. injection H as _ <-. split; [|reflexivity].
    intro n. apply (isRegistered_registerJoint name n (mkNode name kind mat settings) st); reflexivity.
Qed.

Lemma creates_step (name : string) (mat : M4) (limits : option JointLimits) :
  createStep name (createFreeflyerJoint name mat) /\
  createStep name (createRotationJoint name mat limits) /\
  createStep name (createContinuousJoint name mat) /\
  createStep name (createTranslationJoint name mat limits) /\
  createStep name (createAnchorJoint name mat).
Proof.
  unfold createFreeflyerJoint, createRotationJoint, createContinuousJoint,
    createTranslationJoint, createAnchorJoint.
  split; [|split; [|split; [|split]]]; apply createStep_of.
Qed.

Lemma parseJointsLoop_registered (fuel : nat) (m : UrdfModel)
  (l : list (string * UrdfJoint)) (st st' : PState) :
  parseJointsLoop fuel m l st = Ret (true, st') ->
  (forall n, isRegistered n st' = true <-> isRegistered n st = true \/ In n (map fst l)) /\
  rootJoint st' = rootJoint st.
Proof.
  revert st. induction l as [|[name0 j0] l IH]; intros st H.
  - simpl in H. injection H as <-. simpl. split; [intro n; tauto | reflexivity].
  - simpl in H. unfold pbind, plift in H.
    destruct (getPoseInReferenceFrame fuel m "base_footprint_joint" name0) as [a| | |];
      simpl in H; try discriminate.
    simpl in H. destruct (getJoint m name0) as [joint|]; [|discriminate].
    destruct (creates_step name0
                (if isActuatedType (j_type joint)
                 then a ** normalizeFrameOrientation (Some (j_axis joint)) else a)
                (j_limits j0)) as (C1 & C2 & C3 & C4 & C5).
    destruct (j_type j0) eqn:Ht; unfold pret in H; try discriminate;
    match type of H with
    | obind (?c st) _ = _ =>
      let r := fresh "r" in let s := fresh "s" in
      destruct (c st) as [[r s]|s|s|] eqn:E; simpl in H; try discriminate;
      destruct (IH s H) as [IH1 IH2];
      first [ destruct (C1 _ _ _ E) as [S1 S2] | destruct (C2 _ _ _ E) as [S1 S2]
            | destruct (C3 _ _ _ E) as [S1 S2] | destruct (C4 _ _ _ E) as [S1 S2]
            | destruct (C5 _ _ _ E) as [S1 S2] ];
      split; [intro n; rewrite IH1, S1; simpl; intuition | congruence]
    end.
Qed.

Lemma parseJoints_registry_names (fuel : nat) (m : UrdfModel) (st st' : PState) :
  jointsMap st = [] ->
  parseJoints fuel m st = Ret (true, st') ->
  rootJoint st' = Some "base_joint" /\
  forall n, isRegistered n st' = true <-> n = "base_joint" \/ In n (map fst (joints_ m)).
Proof.
  intros H0 H. unfold parseJoints, createFreeflyerJoint, pbind, pget, pput, pret in H.
  simpl in H. unfold isRegistered in H. rewrite H0 in H. simpl in H.
  destruct (parseJointsLoop_registered fuel m (joints_ m) _ _ H) as [R1 R2].
  split; [exact R2|].
  intro n. rewrite R1. unfold isRegistered. simpl. rewrite H0. simpl.
  destruct (String.eqb_spec n "base_joint") as [->|Hne]; [intuition|].
  destruct (String.eqb n "base_joint"); intuition discriminate.
Qed.

(** From an empty registry, a successful [parseJoints] sets the root joint to
    [base_joint], and the registry then holds exactly [base_joint] and the
    names of the model's joints. *)
Theorem parseJoints_registry (fuel : nat) (m : UrdfModel) (st st' : PState) :
  jointsMap st = [] ->
  parseJoints fuel m st = Ret (true, st') ->
  rootJoint st' = Some "base_joint" /\
  forall n, isRegistered n st' = true <-> n = "base_joint" \/ In n (map fst (joints_ m)).
Proof. exact (parseJoints_registry_names fuel m st st'). Qed.

Lemma getChildrenJointAux_registered (fuel : nat) (m : UrdfModel) (reg : list (string * Node))
  (jointName : string) (result : list string) (b : bool) (res : list string) :
  getChildrenJointAux fuel m reg jointName result = Ret (b, res) ->
  forall c, In c res -> In c result \/ lookup c reg <> None.
Proof.
  revert jointName result b res.
  induction fuel as [|fuel IH]; intros jointName result b res H; [discriminate|].
  simpl in H.
  destruct (getJoint m jointName) as [j|]; destruct (String.eqb jointName "base_joint");
    try (injection H as _ <-; tauto);
  match type of H with
  | match ?e with Some _ => _ | None => _ end = _ =>
    let cl := fresh "cl" in destruct e as [cl|]; [|discriminate]
  end;
  (revert result b res H; generalize (l_child_joints cl); intro cs;
   induction cs as [|c0 cs IHcs]; intros result b res H; simpl in H;
   [ injection H as _ <-; tauto
   | destruct (lookup c0 reg) as [n0|] eqn:Hc0;
     [ intros c Hin; destruct (IHcs _ _ _ H c Hin) as [Hr|Hr]; [|right; exact Hr];
       apply in_app_or in Hr; destruct Hr as [Hr|[<-|[]]]; [left; exact Hr | right; congruence]
     | destruct (getChildrenJointAux fuel m reg c0 result) as [[b1 r1]| | |] eqn:E;
       simpl in H; try discriminate;
       destruct b1;
       [ intros c Hin; destruct (IHcs _ _ _ H c Hin) as [Hr|Hr]; [|right; exact Hr];
         exact (IH _ _ _ _ E c Hr)
       | injection H as _ <-; exact (IH _ _ _ _ E) ] ] ]).
Qed.

Lemma lookup_Some_In {A : Type} (k : string) (v : A) (l : list (string * A)) :
  lookup k l = Some v -> In (k, v) l.
Proof.
  induction l as [|[k' v'] l IH]; simpl; [discriminate|].
  destruct (String.eqb_spec k k') as [->|_]; [injection 1 as ->; left; reflexivity|].
  intro H; right; exact (IH H).
Qed.

Lemma connectJoints_post (fuel : nat) (m : UrdfModel) (root : string) (st : PState)
  (b : bool) (st' : PState) :
  connectJoints fuel m root st = Ret (b, st') ->
  b = true /\ jointsMap st' = jointsMap st /\
  forall p c, In (p, c) (childEdges st') ->
    In (p, c) (childEdges st) \/
    ((p = root \/ In p (registeredNodeNames st)) /\ In c (registeredNodeNames st)).
Proof.
  revert root st b st'.
  induction fuel as [|fuel IH]; intros root st b st' H; [discriminate|].
  cbn [connectJoints] in H. unfold pbind, pget, plift in H. simpl in H.
  destruct (getChildrenJoint (S fuel) m (jointsMap st) root) as [names| | |] eqn:Eg;
    simpl in H; try discriminate.
  assert (Hnames : forall c, In c names -> lookup c (jointsMap st) <> None).
  { unfold getChildrenJoint in Eg.
    destruct (getChildrenJointAux (S fuel) m (jointsMap st) root []) as [[b0 r0]| | |] eqn:Ea;
      simpl in Eg; try discriminate. injection Eg as <-.
    intros c Hc. destruct (getChildrenJointAux_registered _ _ _ _ _ _ _ Ea c Hc) as [[]|Hr].
    exact Hr. }
  clear Eg.
  assert (Gen : forall s, jointsMap s = jointsMap st ->
            (forall p c, In (p, c) (childEdges s) ->
               In (p, c) (childEdges st) \/
               ((p = root \/ In p (registeredNodeNames st)) /\ In c (registeredNodeNames st))) ->
            (fix loop (ns : list string) : PM bool :=
               match ns with
               | [] => pret true
               | childName :: ns' =>
                 st <~ pget ;;
                 match findJoint childName st with
                 | None => pfault "child->second on jointsMap_.end ()"
                 | Some child =>
                   addChildJoint root (n_name child) ;;;
                   connectJoints fuel m (n_name child) ;;;
                   loop ns'
                 end
               end) names s = Ret (b, st') ->
            b = true /\ jointsMap st' = jointsMap st /\
            forall p c, In (p, c) (childEdges st') ->
              In (p, c) (childEdges st) \/
              ((p = root \/ In p (registeredNodeNames st)) /\ In c (registeredNodeNames st))).
  { clear H. induction names as [|c0 names IHn]; intros s Hs He Hl.
    - simpl in Hl. unfold pret in Hl. injection Hl as <- <-. auto.
    - simpl in Hl. unfold pbind, pget in Hl. simpl in Hl.
      unfold findJoint in Hl. rewrite Hs in Hl.
      destruct (lookup c0 (jointsMap st)) as [child|] eqn:Ec;
        [|exfalso; apply (Hnames c0); [left; reflexivity | exact Ec]].
      unfold addChildJoint in Hl. simpl in Hl.
      set (s1 := mkPState _ _ _ _ _ _ _ _) in Hl.
      destruct (connectJoints fuel m (n_name child) s1) as [[r2 s2]| | |] eqn:Ecj;
        simpl in Hl; try discriminate.
      destruct (IH _ _ _ _ Ecj) as (_ & Hj2 & He2).
      assert (Hin : In (n_name child) (registeredNodeNames st)).
      { unfold registeredNodeNames. apply (in_map (fun e => n_name (snd e)) _ (c0, child)).
        apply lookup_Some_In. exact Ec. }
      apply (IHn (fun c H => Hnames c (or_intror H)) s2).
      + rewrite Hj2. simpl. exact Hs.
      + intros p c Hpc. destruct (He2 p c Hpc) as [Hold|Hnew].
        * simpl in Hold. apply in_app_or in Hold. destruct Hold as [Hold|[Heq|[]]].
          -- exact (He p c Hold).
          -- injection Heq as <- <-. right. split; [left; reflexivity | exact Hin].
        * right. unfold registeredNodeNames in *. simpl in Hnew. rewrite Hs in Hnew.
          destruct Hnew as [[Hp|Hp] Hc]; split; try exact Hc; right; [subst p; exact Hin | exact Hp].
      + exact Hl. }
  exact (Gen st eq_refl (fun p c H => or_introl H) H).
Qed.

(** [connectJoints] never returns false and never changes the registry; each
    parent/child edge it adds goes from the given root name or a registered
    node to a registered node. *)
Theorem connectJoints_edges (fuel : nat) (m : UrdfModel) (root : string) (st : PState)
  (b : bool) (st' : PState) :
  connectJoints fuel m root st = Ret (b, st') ->
  b = true /\ jointsMap st' = jointsMap st /\
  forall p c, In (p, c) (childEdges st') ->
    In (p, c) (childEdges st) \/
    ((p = root \/ In p (registeredNodeNames st)) /\ In c (registeredNodeNames st)).
Proof. exact (connectJoints_post fuel m root st b st'). Qed.

Lemma specialName_setSpecialName (r role name : string) (st : PState) :
  specialName r (setSpecialName role name st) =
  if String.eqb r role then name else specialName r st.
Proof.
  unfold specialName, setSpecialName; simpl.
  destruct (String.eqb_spec r role) as [->|Hne].
  - rewrite lookup_map_insert_same. reflexivity.
  - rewrite lookup_map_insert_other by exact Hne. reflexivity.
Qed.

Lemma specialName_findSpecialJoint_same (m : UrdfModel) (rep role : string) (st : PState) :
  specialName role (findSpecialJoint m rep role st) =
  match getLink m rep with
  | Some l => match l_parent_joint l with Some j => j | None => specialName role st end
  | None => specialName role st
  end.
Proof.
  unfold findSpecialJoint.
  destruct (getLink m rep) as [l|]; [destruct (l_parent_joint l) as [j|]|]; try reflexivity.
  rewrite specialName_setSpecialName, String.eqb_refl. reflexivity.
Qed.

Lemma specialName_findSpecialJoint_other (m : UrdfModel) (r rep role : string) (st : PState) :
  String.eqb r role = false ->
  specialName r (findSpecialJoint m rep role st) = specialName r st.
Proof.
  intro H. unfold findSpecialJoint.
  destruct (getLink m rep) as [l|]; [destruct (l_parent_joint l) as [j|]|]; try reflexivity.
  rewrite specialName_setSpecialName, H. reflexivity.
Qed.

Ltac peel_special_names :=
  repeat first [ rewrite specialName_findSpecialJoint_same
               | rewrite specialName_findSpecialJoint_other by reflexivity ];
  rewrite ?specialName_setSpecialName.

(** [findSpecialJoints] names the waist [base_joint]; each other role gets the
    parent joint of its representative link, and keeps its previous name when
    the link or its parent joint is missing. *)
Theorem findSpecialJoints_roles (m : UrdfModel) (st : PState) :
  specialName "waist" (findSpecialJoints m st) = "base_joint" /\
  forall rep role, In (rep, role) specialJointLinks ->
    specialName role (findSpecialJoints m st) =
    match getLink m rep with
    | Some l => match l_parent_joint l with Some j => j | None => specialName role st end
    | None => specialName role st
    end.
Proof.
  unfold findSpecialJoints. split.
  - peel_special_names. reflexivity.
  - intros rep role Hin.
    repeat (destruct Hin as [Hin|Hin]; [injection Hin as <- <-|]); [..|destruct Hin];
      peel_special_names; reflexivity.
Qed.

Lemma keeps_pret {A : Type} (a : A) : keepsBodies (pret a).
Proof. intros st r st' H. injection H as _ <-. auto. Qed.

Lemma keeps_pget : keepsBodies pget.
Proof. intros st r st' H. injection H as _ <-. auto. Qed.

Lemma keeps_plift {A : Type} (o : outcome A) : keepsBodies (plift o).
Proof.
  intros st r st' H. unfold plift in H. destruct o; simpl in H; try discriminate.
  injection H as _ <-. auto.
Qed.

Lemma keeps_pbind {A B : Type} (m : PM A) (k : A -> PM B) :
  keepsBodies m -> (forall a, keepsBodies (k a)) -> keepsBodies (pbind m k).
Proof.
  intros Hm Hk st r st' H. unfold pbind in H.
  destruct (m st) as [[a s1]| | |] eqn:E; simpl in H; try discriminate.
  destruct (Hm _ _ _ E) as [H1 H2]. destruct (Hk a _ _ _ H) as [H3 H4].
  split; congruence.
Qed.

Lemma keeps_addSolid (j : string) (s : Solid) : keepsBodies (addSolid j s).
Proof. intros st r st' H. injection H as _ <-. auto. Qed.

Ltac keeps_tac :=
  repeat first
    [ apply keeps_pbind; [|intro]
    | apply keeps_pret | apply keeps_pget | apply keeps_plift | apply keeps_addSolid
    | match goal with
      | |- keepsBodies (if ?b then _ else _) => destruct b
      | |- keepsBodies (match ?x with _ => _ end) => destruct x
      end ].

Lemma addSolidComponentToJoint_keeps (load : Loader) (m : UrdfModel) (link : UrdfLink)
  (joint : Node) (visual collision : Shape) :
  keepsBodies (addSolidComponentToJoint load m link joint visual collision).
Proof. unfold addSolidComponentToJoint. keeps_tac. Qed.

Lemma addBodyToJoint_none (load : Loader) (m : UrdfModel) (name : string) (node : Node)
  (st st' : PState) :
  addBodyToJoint load m name node st = Ret (None, st') ->
  map fst (bodies st') =
    (map fst (bodies st) ++ (if bodyEntry m (name, node) then [n_name node] else []))%list /\
  jointsMap st' = jointsMap st.
Proof.
  unfold addBodyToJoint, bodyEntry; simpl. intro H.
  destruct (getJoint m name) as [j|] eqn:Ej;
  [| destruct (String.eqb name "base_joint") eqn:Eb;
     [| injection H as <-; rewrite app_nil_r; auto]];
  (destruct (getLink m _) as [link|]; [|discriminate H];
   unfold pbind, plift in H; simpl in H;
   destruct (linkInertia m name link) as [[[mass com] im]| | |]; simpl in H; try discriminate;
   unfold setLinkedBody in H; simpl in H;
   set (s1 := mkPState _ _ _ _ _ _ _ _) in H;
   assert (Hs1 : map fst (bodies s1) = (map fst (bodies st) ++ [n_name node])%list /\
                 jointsMap s1 = jointsMap st)
     by (simpl; rewrite map_app; auto);
   clearbody s1;
   destruct (l_visual link) as [v|]; destruct (l_collision link) as [c|];
   try (injection H as <-; exact Hs1);
   destruct (addSolidComponentToJoint load m link node v c s1) as [[ok s2]| | |] eqn:Ea;
   simpl in H; try discriminate;
   destruct (addSolidComponentToJoint_keeps _ _ _ _ _ _ _ _ _ Ea) as [Hb2 Hj2];
   destruct ok; simpl in H; [|discriminate];
   unfold setBodyName in H; simpl in H; injection H as <-; simpl;
   rewrite Hb2, Hj2; exact Hs1).
Qed.

Lemma addBodyToJoint_some (load : Loader) (m : UrdfModel) (name : string) (node : Node)
  (st st' : PState) (b : bool) :
  addBodyToJoint load m name node st = Ret (Some b, st') -> b = false.
Proof.
  unfold addBodyToJoint, pbind, plift, pret, setLinkedBody, setBodyName; simpl. intro H.
  repeat match type of H with
  | context [obind (addSolidComponentToJoint ?a ?b ?c ?d ?e ?f ?g) _] =>
      destruct (addSolidComponentToJoint a b c d e f g) as [[[|] ?]| | |]; simpl in H
  | context [obind (linkInertia ?a ?b ?c) _] =>
      destruct (linkInertia a b c) as [[[? ?] ?]| | |]; simpl in H
  | context [match ?x with _ => _ end] => destruct x; simpl in H
  end; congruence.
Qed.

Lemma addBodiesLoop_bodies (load : Loader) (m : UrdfModel) (l : list (string * Node))
  (st st' : PState) :
  addBodiesLoop load m l st = Ret (true, st') ->
  map fst (bodies st') =
    (map fst (bodies st) ++ map (fun e => n_name (snd e)) (filter (bodyEntry m) l))%list /\
  jointsMap st' = jointsMap st.
Proof.
  revert st. induction l as [|[name node] l IH]; intros st H.
  - simpl in H. injection H as <-. rewrite app_nil_r. auto.
  - simpl in H. unfold pbind in H.
    destruct (addBodyToJoint load m name node st) as [[r s1]| | |] eqn:E;
      simpl in H; try discriminate.
    destruct r as [b|].
    + apply addBodyToJoint_some in E. injection H as -> _. discriminate E.
    + destruct (addBodyToJoint_none _ _ _ _ _ _ E) as [Hb1 Hj1].
      destruct (IH _ H) as [Hb2 Hj2]. split; [|congruence].
      rewrite Hb2, Hb1. simpl. destruct (bodyEntry m (name, node)); simpl;
        rewrite <- app_assoc; reflexivity.
Qed.

(** A successful [addBodiesToJoints] links one body to each registry entry named
    [base_joint] or a model joint, in registry order, and to no other, and
    leaves the registry unchanged. *)
Theorem addBodiesToJoints_bodies (load : Loader) (m : UrdfModel) (st st' : PState) :
  addBodiesToJoints load m st = Ret (true, st') ->
  map fst (bodies st') =
    (map fst (bodies st)
     ++ map (fun e => n_name (snd e)) (filter (bodyEntry m) (jointsMap st)))%list /\
  jointsMap st' = jointsMap st.
Proof. unfold addBodiesToJoints, pbind, pget; simpl. apply addBodiesLoop_bodies. Qed.

(** A visual/collision geometry pair other than mesh/mesh, cylinder/cylinder,
    box/box and mesh/cylinder (a sphere, for instance) adds no solid:
    [addSolidComponentToJoint] succeeds and leaves the state unchanged. *)
Theorem addSolidComponentToJoint_unsupported (load : Loader) (m : UrdfModel) (link : UrdfLink)
  (joint : Node) (visual collision : Shape) (st : PState) :
  match sh_geometry visual, sh_geometry collision with
  | Mesh _ _, Mesh _ _ | Cylinder _ _, Cylinder _ _ | Box _, Box _
  | Mesh _ _, Cylinder _ _ => False
  | _, _ => True
  end ->
  addSolidComponentToJoint load m link joint visual collision st = Ret (true, st).
Proof.
  unfold addSolidComponentToJoint.
  destruct (sh_geometry visual), (sh_geometry collision); intros []; reflexivity.
Qed.

Lemma eqb_false_of_getJoint (m : UrdfModel) (r c : string) (j : UrdfJoint) :
  getJoint m r = None -> getJoint m c = Some j -> String.eqb r c = false.
Proof.
  intros Hr Hc. destruct (String.eqb_spec r c) as [->|]; [congruence | reflexivity].
Qed.

(** When every parent joint is a joint of the model, the pose computed for a
    model joint does not depend on the reference name as long as that name is
    not a joint of the model. *)
Theorem getPoseInReferenceFrame_unknown_reference (fuel : nat) (m : UrdfModel)
  (r1 r2 c : string) (j : UrdfJoint) :
  parentJointsKnown m ->
  getJoint m r1 = None -> getJoint m r2 = None -> getJoint m c = Some j ->
  getPoseInReferenceFrame fuel m r1 c = getPoseInReferenceFrame fuel m r2 c.
Proof.
  intros Hk H1 H2. revert c j.
  induction fuel as [|fuel IH]; intros c j Hc; [reflexivity|].
  simpl. rewrite (eqb_false_of_getJoint m r1 c j H1 Hc),
                 (eqb_false_of_getJoint m r2 c j H2 Hc), Hc.
  destruct (getLink m (j_parent_link j)) as [pl|] eqn:El; [|reflexivity].
  destruct (l_parent_joint pl) as [pj|] eqn:Ep; [|reflexivity].
  destruct (Hk _ _ _ El Ep) as [j' Hj'].
  rewrite (IH pj j' Hj'). reflexivity.
Qed.

Lemma actuatedJointsLoop_complete (l : list (string * UrdfJoint)) (reg : list (string * Node))
  (acc out : list string) :
  actuatedJointsLoop l reg acc = Ret out ->
  (forall x, In x acc -> In x out) /\
  forall name j, In (name, j) l ->
    j_type j <> UNKNOWN -> j_type j <> FLOATING -> j_type j <> FIXED ->
    exists node, lookup name reg = Some node /\ In (n_name node) out.
Proof.
  revert acc. induction l as [|[name0 j0] l IH]; intros acc H.
  - simpl in H. injection H as <-. split; [auto | intros ? ? []].
  - simpl in H.
    assert (Step : forall acc', actuatedJointsLoop l reg acc' = Ret out ->
              (forall x, In x acc -> In x acc') ->
              (j_type j0 <> UNKNOWN -> j_type j0 <> FLOATING -> j_type j0 <> FIXED ->
               exists node, lookup name0 reg = Some node /\ In (n_name node) acc') ->
              (forall x, In x acc -> In x out) /\
              forall name j, In (name, j) ((name0, j0) :: l) ->
                j_type j <> UNKNOWN -> j_type j <> FLOATING -> j_type j <> FIXED ->
                exists node, lookup name reg = Some node /\ In (n_name node) out).
    { intros acc' H' Hacc H0. destruct (IH acc' H') as [Hsub Hrest].
      split; [intros x Hx; apply Hsub, Hacc, Hx|].
      intros name j [Heq|Hin] Hu Hf Hx.
      - injection Heq as <- <-. destruct (H0 Hu Hf Hx) as (node & Hl & Hn).
        exists node. split; [exact Hl | apply Hsub, Hn].
      - exact (Hrest name j Hin Hu Hf Hx). }
    destruct (j_type j0) eqn:Et;
      try (apply (Step acc H); [auto | intros; congruence]);
      (destruct (lookup name0 reg) as [child|] eqn:El; [|discriminate H];
       destruct (existsb (String.eqb (n_name child)) acc) eqn:Ee;
       [ apply (Step acc H); [auto|];
         intros _ _ _; exists child; split; [reflexivity|];
         apply existsb_exists in Ee; destruct Ee as (y & Hy & Hyq);
         apply String.eqb_eq in Hyq; subst y; exact Hy
       | apply (Step _ H); [intros x Hx; apply in_or_app; left; exact Hx|];
         intros _ _ _; exists child; split; [reflexivity|];
         apply in_or_app; right; left; reflexivity ]).
Qed.

(** When [actuatedJoints] succeeds, every model joint of a type other than
    UNKNOWN, FLOATING and FIXED is registered, and the name of its node is in
    the returned list. *)
Theorem actuatedJoints_complete (m : UrdfModel) (st : PState) (out : list string) :
  actuatedJoints m st = Ret out ->
  forall name j, In (name, j) (joints_ m) ->
    j_type j <> UNKNOWN -> j_type j <> FLOATING -> j_type j <> FIXED ->
    exists node, findJoint name st = Some node /\ In (n_name node) out.
Proof.
  intros H. exact (proj2 (actuatedJointsLoop_complete _ _ _ _ H)).
Qed.

Lemma setSpecialJoints_fold (roles : list string) (st : PState) (r : Robot) :
  robot st = Some r ->
  exists table,
    fold_left (fun st role => setSpecialJoint role st) roles st
      = setRobot (withRoles table) st /\
    forall x, lookup x table =
      match existsb (String.eqb x) roles, findJoint (specialName x st) st with
      | true, Some j => Some (n_name j)
      | _, _ => lookup x (rb_roles r)
      end.
Proof.
  revert st r. induction roles as [|role roles IH]; intros st r Hr.
  - exists (rb_roles r). simpl. split; [|reflexivity].
    unfold setRobot, withRoles. rewrite Hr. destruct st, r; simpl in *; subst; reflexivity.
  - simpl. unfold setSpecialJoint at 2.
    destruct (findJoint (specialName role st) st) as [j|] eqn:Ej.
    + set (st1 := setRobot (withRole role (n_name j)) st).
      assert (Hr1 : robot st1 = Some (withRole role (n_name j) r)) by (simpl; rewrite Hr; reflexivity).
      destruct (IH st1 _ Hr1) as (table & Hf & Ht).
      assert (Hs : forall x, findJoint (specialName x st1) st1 = findJoint (specialName x st) st)
        by reflexivity.
      exists table. split.
      * rewrite Hf. unfold st1, setRobot, withRoles, withRole. rewrite Hr. reflexivity.
      * intro x. rewrite Ht, Hs. simpl.
        destruct (String.eqb_spec x role) as [->|Hne]; simpl.
        -- rewrite Ej. destruct (existsb _ roles); [reflexivity|]. apply lookup_map_insert_same.
        -- rewrite lookup_map_insert_other by exact Hne. reflexivity.
    + destruct (IH st r Hr) as (table & Hf & Ht).
      exists table. split; [exact Hf|].
      intro x. rewrite Ht. destruct (String.eqb_spec x role) as [->|Hne]; simpl.
      * rewrite Ej. destruct (existsb _ roles); reflexivity.
      * reflexivity.
Qed.

(** [setSpecialJoints] only changes the robot's role table: each of the seven
    roles waist, chest, wrists, ankles and gaze is set to the name of the node
    registered under its special joint name when there is one, and every other
    role, hands and feet included, keeps its entry. *)
Theorem setSpecialJoints_roles (st : PState) (r : Robot) :
  robot st = Some r ->
  exists table,
    setSpecialJoints st = setRobot (withRoles table) st /\
    (forall role, In role ["waist"; "chest"; "leftWrist"; "rightWrist";
                           "leftAnkle"; "rightAnkle"; "gaze"] ->
       lookup role table =
         match findJoint (specialName role st) st with
         | Some j => Some (n_name j)
         | None => lookup role (rb_roles r)
         end) /\
    (forall role, ~ In role ["waist"; "chest"; "leftWrist"; "rightWrist";
                             "leftAnkle"; "rightAnkle"; "gaze"] ->
       lookup role table = lookup role (rb_roles r)).
Proof.
  intro Hr. destruct (setSpecialJoints_fold
    ["waist"; "chest"; "leftWrist"; "rightWrist"; "leftAnkle"; "rightAnkle"; "gaze"] st r Hr)
    as (table & Hf & Ht).
  exists table. split; [exact Hf|]. split.
  - intros role Hin. rewrite Ht.
    replace (existsb (String.eqb role) _) with true; [reflexivity|].
    symmetry. apply existsb_exists. exists role. split; [exact Hin | apply String.eqb_refl].
  - intros role Hin. rewrite Ht.
    replace (existsb (String.eqb role) _) with false; [reflexivity|].
    symmetry. apply Bool.not_true_iff_false. intro He.
    apply existsb_exists in He. destruct He as (y & Hy & Hyq).
    apply String.eqb_eq in Hyq. subst y. exact (Hin Hy).
Qed.

(** ** The properties on concrete inputs *)

Lemma poseToMatrix_rigid_witness :
  quatNorm2 (rotation (mkPose (mkV3 1 2 3) (mkQuat 0 0 1 1))) <> 0 /\
  det3 (rot3 (poseToMatrix (mkPose (mkV3 1 2 3) (mkQuat 0 0 1 1)))) = 1.
Proof.
  assert (H : quatNorm2 (rotation (mkPose (mkV3 1 2 3) (mkQuat 0 0 1 1))) <> 0)
    by (unfold quatNorm2; simpl; lra).
  split; [exact H | exact (proj1 (proj2 (poseToMatrix_rigid _ H)))].
Defined.

Lemma poseToMatrix_scale_invariant_witness :
  poseToMatrix (mkPose (mkV3 1 2 3) (quatScale 2 (mkQuat 0 0 1 1)))
  = poseToMatrix (mkPose (mkV3 1 2 3) (mkQuat 0 0 1 1)).
Proof.
  apply (poseToMatrix_scale_invariant (mkPose (mkV3 1 2 3) (mkQuat 0 0 1 1)) 2);
    [lra | unfold quatNorm2; simpl; lra].
Defined.

Lemma normalizeFrameOrientation_frame_witness :
  norm2 (mkV3 0 0 2) <> 0 /\
  m3col (rot3 (normalizeFrameOrientation (Some (mkV3 0 0 2)))) 0 = normalize (mkV3 0 0 2).
Proof.
  assert (H : norm2 (mkV3 0 0 2) <> 0) by (unfold norm2, dot; simpl; lra).
  split; [exact H|].
  pose proof (normalizeFrameOrientation_frame (mkV3 0 0 2) H) as T. cbv zeta in T.
  exact (proj1 T).
Defined.

Lemma inertialLink_axes :
  forall pj, parentJointType revoluteModel inertialLink = Ret pj -> norm2 (j_axis pj) <> 0.
Proof.
  intros pj Hp. cbv -[sqrt Rabs Rlt_dec Rmult Rplus Rminus Ropp Rdiv Rinv IZR] in Hp. injection Hp as <-. unfold norm2, dot; simpl; lra.
Qed.

Lemma linkInertia_principal_moments_witness :
  exists mass com im, linkInertia revoluteModel "j1" inertialLink = Ret (mass, com, im) /\
    forall l, charpoly3 im l = charpoly3 (mkM3 1 0 0 0 1 0 0 0 1) l.
Proof.
  destruct (linkInertia revoluteModel "j1" inertialLink) as [[[mass com] im]| | |] eqn:E;
    try (hnf in E; discriminate E).
  exists mass, com, im. split; [reflexivity|].
  exact (proj2 (linkInertia_principal_moments revoluteModel "j1" inertialLink
                  (mkInertial identityPose 2 1 0 0 1 0 1) mass com im
                  eq_refl inertialLink_axes E)).
Defined.

Lemma linkInertia_roundtrip_witness :
  exists mass com im, linkInertia revoluteModel "j1" inertialLink = Ret (mass, com, im) /\
    exists n, trans3 (n ** homogeneous m3id com) = mkV3 0 0 0.
Proof.
  destruct (linkInertia revoluteModel "j1" inertialLink) as [[[mass com] im]| | |] eqn:E;
    try (hnf in E; discriminate E).
  exists mass, com, im. split; [reflexivity|].
  destruct (linkInertia_roundtrip revoluteModel "j1" inertialLink
              (mkInertial identityPose 2 1 0 0 1 0 1) mass com im
              eq_refl inertialLink_axes E) as (n & _ & _ & Hc & _).
  exists n. exact Hc.
Defined.

Lemma create_joint_registers_witness :
  isRegistered "j" initialPState = false /\
  registersAs "j" m4id AnchorNode (createAnchorJoint "j" m4id) initialPState.
Proof.
  split; [reflexivity|].
  exact (proj2 (proj2 (proj2 (proj2
    (create_joint_registers "j" m4id None initialPState eq_refl))))).
Defined.

Lemma parseJoints_registry_witness :
  exists st', parseJoints 20 revoluteModel initialPState = Ret (true, st') /\
    isRegistered "j1" st' = true.
Proof.
  destruct (parseJoints 20 revoluteModel initialPState) as [[b st']| | |] eqn:E;
    pose proof E as E0;
    cbv -[sqrt Rabs Rlt_dec Rmult Rplus Rminus Ropp Rdiv Rinv IZR] in E0; try discriminate E0.
  destruct b; [|discriminate E0].
  exists st'. split; [reflexivity|].
  apply (proj2 (parseJoints_registry 20 revoluteModel initialPState st' eq_refl E)).
  right. left. reflexivity.
Defined.

Lemma connectJoints_edges_witness :
  exists b st', connectJoints 20 revoluteModel "base_joint" revoluteParsed = Ret (b, st') /\
    b = true /\ jointsMap st' = jointsMap revoluteParsed.
Proof.
  destruct (connectJoints 20 revoluteModel "base_joint" revoluteParsed) as [[b st']| | |] eqn:E;
    pose proof E as E0;
    cbv -[sqrt Rabs Rlt_dec Rmult Rplus Rminus Ropp Rdiv Rinv IZR] in E0; try discriminate E0.
  exists b, st'. split; [reflexivity|].
  destruct (connectJoints_edges 20 revoluteModel "base_joint" revoluteParsed b st' E)
    as (Hb & Hj & _).
  split; assumption.
Defined.

Lemma computeHandsInformation_roundtrip_witness :
  n_pose (mkNode "wrist" AnchorNode (homogeneous m3id (mkV3 2 0 0)) [])
    ** homogeneous
         (fromColumns
            (hd_thumb (computeHandsInformation
               (mkNode "hand" AnchorNode (homogeneous m3id (mkV3 0 1 0)) [])
               (mkNode "wrist" AnchorNode (homogeneous m3id (mkV3 2 0 0)) [])))
            (hd_foreFinger (computeHandsInformation
               (mkNode "hand" AnchorNode (homogeneous m3id (mkV3 0 1 0)) [])
               (mkNode "wrist" AnchorNode (homogeneous m3id (mkV3 2 0 0)) [])))
            (hd_palm (computeHandsInformation
               (mkNode "hand" AnchorNode (homogeneous m3id (mkV3 0 1 0)) [])
               (mkNode "wrist" AnchorNode (homogeneous m3id (mkV3 2 0 0)) []))))
         (hd_center (computeHandsInformation
            (mkNode "hand" AnchorNode (homogeneous m3id (mkV3 0 1 0)) [])
            (mkNode "wrist" AnchorNode (homogeneous m3id (mkV3 2 0 0)) [])))
  = homogeneous m3id (mkV3 0 1 0).
Proof.
  apply (proj2 (computeHandsInformation_roundtrip
                  (mkNode "hand" AnchorNode (homogeneous m3id (mkV3 0 1 0)) [])
                  (mkNode "wrist" AnchorNode (homogeneous m3id (mkV3 2 0 0)) [])
                  (lastRowUnit_homogeneous _ _) (lastRowUnit_homogeneous _ _)
                  ltac:(cbv -[Rmult Rplus Rminus Ropp Rdiv Rinv IZR]; lra))).
Defined.

Lemma computeAnklePositionInLocalFrame_roundtrip_witness :
  trans3 (homogeneous m3id (mkV3 2 0 0)
          ** homogeneous m3id
               (computeAnklePositionInLocalFrame
                  (mkNode "foot" AnchorNode (homogeneous m3id (mkV3 2 0 0)) [])
                  (mkNode "ankle" AnchorNode (homogeneous m3id (mkV3 0 0 1)) [])))
  = mkV3 0 0 1.
Proof.
  exact (computeAnklePositionInLocalFrame_roundtrip
           (mkNode "foot" AnchorNode (homogeneous m3id (mkV3 2 0 0)) [])
           (mkNode "ankle" AnchorNode (homogeneous m3id (mkV3 0 0 1)) [])
           (lastRowUnit_homogeneous _ _) (lastRowUnit_homogeneous _ _)
           ltac:(cbv -[Rmult Rplus Rminus Ropp Rdiv Rinv IZR]; lra)).
Defined.

Lemma addBodiesToJoints_bodies_witness :
  exists st', addBodiesToJoints loadAll revoluteModel revoluteParsed = Ret (true, st') /\
    map fst (bodies st') = ["base_joint"; "j1"].
Proof.
  destruct (addBodiesToJoints loadAll revoluteModel revoluteParsed) as [[b st']| | |] eqn:E;
    pose proof E as E0;
    cbv -[sqrt Rabs Rlt_dec Rmult Rplus Rminus Ropp Rdiv Rinv IZR] in E0; try discriminate E0.
  destruct b; [|discriminate E0].
  exists st'. split; [reflexivity|].
  rewrite (proj1 (addBodiesToJoints_bodies loadAll revoluteModel revoluteParsed st' E)).
  cbv -[sqrt Rabs Rlt_dec Rmult Rplus Rminus Ropp Rdiv Rinv IZR]. reflexivity.
Defined.

Lemma addSolidComponentToJoint_unsupported_witness :
  addSolidComponentToJoint loadAll revoluteModel inertialLink
    (mkNode "j1" RotationNode m4id []) sphereShape sphereShape initialPState
  = Ret (true, initialPState).
Proof. apply addSolidComponentToJoint_unsupported. exact I. Defined.

Lemma chainModel_parentJointsKnown : parentJointsKnown chainModel.
Proof.
  intros ln l pj Hl Hp. unfold getLink in Hl. simpl in Hl.
  destruct (String.eqb ln "L0"); [injection Hl as <-; discriminate|].
  destruct (String.eqb ln "L1"); [injection Hl as <-; injection Hp as <-; eexists; reflexivity|].
  destruct (String.eqb ln "L2"); [injection Hl as <-; injection Hp as <-; eexists; reflexivity|].
  destruct (String.eqb ln "L3"); [injection Hl as <-; injection Hp as <-; eexists; reflexivity|].
  discriminate.
Qed.

Lemma getPoseInReferenceFrame_unknown_reference_witness :
  getPoseInReferenceFrame 5 chainModel "nowhere" "C"
  = getPoseInReferenceFrame 5 chainModel "base_footprint_joint" "C".
Proof.
  exact (getPoseInReferenceFrame_unknown_reference 5 chainModel "nowhere" "base_footprint_joint"
           "C" (chainJoint "C" "L2" "L3") chainModel_parentJointsKnown eq_refl eq_refl eq_refl).
Defined.

Lemma actuatedJoints_complete_witness :
  exists out, actuatedJoints revoluteModel revoluteParsed = Ret out /\
    exists node, findJoint "j1" revoluteParsed = Some node /\ In (n_name node) out.
Proof.
  destruct (actuatedJoints revoluteModel revoluteParsed) as [out| | |] eqn:E;
    pose proof E as E0;
    cbv -[sqrt Rabs Rlt_dec Rmult Rplus Rminus Ropp Rdiv Rinv IZR] in E0; try discriminate E0.
  exists out. split; [reflexivity|].
  exact (actuatedJoints_complete revoluteModel revoluteParsed out E "j1"
           (mkJoint "j1" REVOLUTE (mkV3 0 0 1) identityPose "base_link" "l1"
              (Some (mkLimits (-1) 1 5 2)))
           (or_introl eq_refl) ltac:(discriminate) ltac:(discriminate) ltac:(discriminate)).
Defined.

Lemma setSpecialJoints_roles_witness :
  exists table,
    setSpecialJoints (mkPState [] None [] [] [] [] [] (Some emptyRobot))
    = setRobot (withRoles table) (mkPState [] None [] [] [] [] [] (Some emptyRobot)) /\
    lookup "leftHand" table = None.
Proof.
  destruct (setSpecialJoints_roles (mkPState [] None [] [] [] [] [] (Some emptyRobot))
              emptyRobot eq_refl) as (table & H1 & _ & H3).
  exists table. split; [exact H1|].
  apply H3. simpl. intuition discriminate.
Defined.

Lemma addBodyToJoint_mesh_mismatch (load : Loader) (m : UrdfModel) (n : string) (node : Node)
  (link : UrdfLink) (v c : Shape) (f1 f2 : string) (s1 s2 : V3) (st st' : PState)
  (r : option bool) :
  bodyEntry m (n, node) = true ->
  getLink m (bodyChildLinkName m n) = Some link ->
  l_visual link = Some v -> l_collision link = Some c ->
  sh_geometry v = Mesh f1 s1 -> sh_geometry c = Mesh f2 s2 -> f1 <> f2 ->
  addBodyToJoint load m n node st = Ret (r, st') -> r = Some false.
Proof.
  unfold bodyEntry, bodyChildLinkName; simpl.
  intros Hb Hl Hv Hc Hgv Hgc Hf H. unfold addBodyToJoint in H.
  destruct (getJoint m n) as [j|]; destruct (String.eqb n "base_joint"); try discriminate Hb;
  rewrite Hl in H; unfold pbind, plift in H; simpl in H;
  (destruct (linkInertia m n link) as [[[mass com] im]| | |]; simpl in H; try discriminate H);
  unfold setLinkedBody in H; simpl in H; rewrite Hv, Hc in H;
  unfold addSolidComponentToJoint, pbind, pret in H; simpl in H; rewrite Hgv, Hgc in H;
  (destruct (String.eqb_spec f1 f2) as [E|_]; [contradiction|]);
  simpl in H; injection H as <- _; reflexivity.
Qed.

Lemma addBodyToJoint_mesh_mismatch_ret (load : Loader) (m : UrdfModel) (n : string)
  (node : Node) (link : UrdfLink) (v c : Shape) (f1 f2 : string) (s1 s2 : V3) (st : PState)
  (inertia : R * V3 * M3) :
  bodyEntry m (n, node) = true ->
  getLink m (bodyChildLinkName m n) = Some link ->
  l_visual link = Some v -> l_collision link = Some c ->
  sh_geometry v = Mesh f1 s1 -> sh_geometry c = Mesh f2 s2 -> f1 <> f2 ->
  linkInertia m n link = Ret inertia ->
  exists st', addBodyToJoint load m n node st = Ret (Some false, st').
Proof.
  unfold bodyEntry, bodyChildLinkName; simpl.
  intros Hb Hl Hv Hc Hgv Hgc Hf Hi. unfold addBodyToJoint.
  destruct inertia as [[mass com] im].
  destruct (getJoint m n) as [j|]; destruct (String.eqb n "base_joint"); try discriminate Hb;
  rewrite Hl; unfold pbind, plift; simpl; rewrite Hi; simpl;
  unfold setLinkedBody; simpl; rewrite Hv, Hc;
  unfold addSolidComponentToJoint, pbind, pret; simpl; rewrite Hgv, Hgc;
  (destruct (String.eqb_spec f1 f2) as [E|_]; [contradiction|]);
  simpl; eexists; reflexivity.
Qed.

Lemma addBodiesLoop_true_no_mesh_mismatch (load : Loader) (m : UrdfModel)
  (l : list (string * Node)) (st st' : PState) :
  addBodiesLoop load m l st = Ret (true, st') ->
  forall n node link v c f1 f2 s1 s2,
    In (n, node) l -> bodyEntry m (n, node) = true ->
    getLink m (bodyChildLinkName m n) = Some link ->
    l_visual link = Some v -> l_collision link = Some c ->
    sh_geometry v = Mesh f1 s1 -> sh_geometry c = Mesh f2 s2 -> f1 = f2.
Proof.
  revert st. induction l as [|[n0 node0] l IH]; intros st H n node link v c f1 f2 s1 s2
    Hin Hb Hl Hv Hc Hgv Hgc; [destruct Hin|].
  simpl in H. unfold pbind in H.
  destruct (addBodyToJoint load m n0 node0 st) as [[r s]| | |] eqn:E;
    simpl in H; try discriminate.
  destruct r as [b|].
  - apply addBodyToJoint_some in E. unfold pret in H. injection H as -> _. discriminate E.
  - destruct (String.eqb_spec f1 f2) as [|Hf]; [assumption|]. exfalso.
    destruct Hin as [Heq|Hin].
    + injection Heq as -> ->.
      pose proof (addBodyToJoint_mesh_mismatch load m n node link v c f1 f2 s1 s2 st s None
                    Hb Hl Hv Hc Hgv Hgc Hf E). discriminate.
    + apply Hf. exact (IH s H n node link v c f1 f2 s1 s2 Hin Hb Hl Hv Hc Hgv Hgc).
Qed.

Lemma jointsMap_findSpecialJoint (m : UrdfModel) (rep role : string) (st : PState) :
  jointsMap (findSpecialJoint m rep role st) = jointsMap st.
Proof.
  unfold findSpecialJoint.
  destruct (getLink m rep) as [l|]; [destruct (l_parent_joint l)|]; reflexivity.
Qed.

Lemma jointsMap_findSpecialJoints (m : UrdfModel) (st : PState) :
  jointsMap (findSpecialJoints m st) = jointsMap st.
Proof. unfold findSpecialJoints. rewrite !jointsMap_findSpecialJoint. reflexivity. Qed.

Lemma jointsMap_setSpecialJoints (st : PState) :
  jointsMap (setSpecialJoints st) = jointsMap st.
Proof.
  unfold setSpecialJoints.
  generalize ["waist"; "chest"; "leftWrist"; "rightWrist"; "leftAnkle"; "rightAnkle"; "gaze"].
  intro roles. revert st. induction roles as [|role roles IH]; intro st; [reflexivity|].
  simpl. rewrite IH. unfold setSpecialJoint.
  destruct (findJoint (specialName role st) st); reflexivity.
Qed.

Ltac reset_is_no_robot H :=
  unfold resetRobot, pbind, pget, pput, pret in H; simpl in H; discriminate H.

Lemma parseStream_robot_bodies_ok (fuel : nat) (load : Loader) (m : UrdfModel)
  (st : PState) (r : Robot) (st' : PState) :
  parseStream fuel load (Some m) st = Ret (Some r, st') ->
  exists st1 st2 st3 st4,
    jointsMap st1 = [] /\
    parseJoints fuel m st1 = Ret (true, st2) /\
    jointsMap st3 = jointsMap st2 /\
    addBodiesLoop load m (jointsMap st3) st3 = Ret (true, st4).
Proof.
  intro H. unfold parseStream, pbind, pget, pput in H. simpl in H.
  set (st1 := findSpecialJoints m _) in H.
  destruct (parseJoints fuel m st1) as [[ok st2]| | |] eqn:E1; simpl in H; try discriminate H.
  destruct ok; simpl in H; [|reset_is_no_robot H].
  destruct (getRoot m); [|reset_is_no_robot H].
  destruct (rootJoint st2) as [rn|]; [|discriminate H].
  destruct (connectJoints fuel m rn st2) as [[ok st3]| | |] eqn:E2; simpl in H;
    try discriminate H.
  destruct ok; simpl in H; [|reset_is_no_robot H].
  unfold addBodiesToJoints, pbind, pget in H. simpl in H.
  destruct (addBodiesLoop load m (jointsMap (setSpecialJoints st3)) (setSpecialJoints st3))
    as [[ok st4]| | |] eqn:E3; simpl in H; try discriminate H.
  destruct ok; simpl in H; [|reset_is_no_robot H].
  exists st1, st2, (setSpecialJoints st3), st4.
  split; [unfold st1; rewrite jointsMap_findSpecialJoints; reflexivity|].
  split; [exact E1|]. split; [|exact E3].
  rewrite jointsMap_setSpecialJoints.
  exact (proj1 (proj2 (connectJoints_post _ _ _ _ _ _ E2))).
Qed.


(** C4.  When the body pass reaches a registry entry, the root [base_joint]
    included, whose child link has a visual mesh and a collision mesh with
    different filenames, it returns failure at once, whatever entries follow
    in registry order (they get no body and no solid).  And whenever
    [parseStream] does return a robot, no such mismatch exists for the root or
    for any joint of the model: a mismatch aborts the whole build, not only
    that link. *)
Theorem addBodiesLoop_mesh_mismatch_stops (load : Loader) (m : UrdfModel) :
  (forall n node st link v c f1 f2 s1 s2 inertia,
     bodyEntry m (n, node) = true ->
     getLink m (bodyChildLinkName m n) = Some link ->
     l_visual link = Some v -> l_collision link = Some c ->
     sh_geometry v = Mesh f1 s1 -> sh_geometry c = Mesh f2 s2 -> f1 <> f2 ->
     linkInertia m n link = Ret inertia ->
     exists st', forall post : list (string * Node),
       addBodiesLoop load m ((n, node) :: post) st = Ret (false, st')) /\
  (forall fuel st r st' n link v c f1 f2 s1 s2,
     parseStream fuel load (Some m) st = Ret (Some r, st') ->
     (n = "base_joint" \/ In n (map fst (joints_ m))) ->
     getLink m (bodyChildLinkName m n) = Some link ->
     l_visual link = Some v -> l_collision link = Some c ->
     sh_geometry v = Mesh f1 s1 -> sh_geometry c = Mesh f2 s2 -> f1 = f2).
Proof.
  split.
  - intros n node st link v c f1 f2 s1 s2 inertia Hb Hl Hv Hc Hgv Hgc Hf Hi.
    destruct (addBodyToJoint_mesh_mismatch_ret load m n node link v c f1 f2 s1 s2 st inertia
                Hb Hl Hv Hc Hgv Hgc Hf Hi) as [st' E].
    exists st'. intro post. simpl. unfold pbind. rewrite E. reflexivity.
  - intros fuel st r st' n link v c f1 f2 s1 s2 H Hn Hl Hv Hc Hgv Hgc.
    destruct (parseStream_robot_bodies_ok fuel load m st r st' H)
      as (st1 & st2 & st3 & st4 & H0 & E1 & Hj & E3).
    destruct (parseJoints_registry_names fuel m st1 st2 H0 E1) as [_ Hreg].
    assert (Hr : isRegistered n st2 = true) by (apply Hreg; exact Hn).
    unfold isRegistered in Hr.
    destruct (lookup n (jointsMap st2)) as [node|] eqn:Ln; [|discriminate Hr].
    assert (Hin : In (n, node) (jointsMap st3)) by (rewrite Hj; apply lookup_Some_In; exact Ln).
    assert (Hb : bodyEntry m (n, node) = true).
    { unfold bodyEntry; simpl. destruct Hn as [->|Hn].
      - destruct (getJoint m "base_joint"); reflexivity.
      - apply in_map_iff in Hn. destruct Hn as ([n' j] & <- & Hin').
        destruct (lookup_In n' j (joints_ m) Hin') as [j' Hj'].
        simpl. unfold getJoint. rewrite Hj'. reflexivity. }
    exact (addBodiesLoop_true_no_mesh_mismatch load m _ _ _ E3 n node link v c f1 f2 s1 s2
             Hin Hb Hl Hv Hc Hgv Hgc).
Qed.

Lemma addBodiesLoop_mesh_mismatch_stops_witness :
  (exists st', forall post : list (string * Node),
    addBodiesLoop loadAll meshMismatchModel
      (("a_joint", mkNode "a_joint" AnchorNode m4id []) :: post) initialPState
    = Ret (false, st')) /\
  (exists st', forall post : list (string * Node),
    addBodiesLoop loadAll
      (mkModel [("base_link", mkLink "base_link" None
                   (Some (mkShape identityPose (Mesh "a.obj" (mkV3 1 1 1))))
                   (Some (mkShape identityPose (Mesh "b.obj" (mkV3 1 1 1))))
                   None [])] [] (Some "base_link"))
      (("base_joint", mkNode "base_joint" AnchorNode m4id []) :: post) initialPState
    = Ret (false, st')).
Proof.
  split.
  - apply (proj1 (addBodiesLoop_mesh_mismatch_stops loadAll meshMismatchModel) "a_joint"
             (mkNode "a_joint" AnchorNode m4id []) initialPState
             (mkLink "a_link" None
                (Some (mkShape identityPose (Mesh "a.obj" (mkV3 1 1 1))))
                (Some (mkShape identityPose (Mesh "b.obj" (mkV3 1 1 1))))
                (Some "a_joint") [])
             (mkShape identityPose (Mesh "a.obj" (mkV3 1 1 1)))
             (mkShape identityPose (Mesh "b.obj" (mkV3 1 1 1)))
             "a.obj" "b.obj" (mkV3 1 1 1) (mkV3 1 1 1) (0, mkV3 0 0 0, m3zero));
      try reflexivity; discriminate.
  - apply (proj1 (addBodiesLoop_mesh_mismatch_stops loadAll
             (mkModel [("base_link", mkLink "base_link" None
                   (Some (mkShape identityPose (Mesh "a.obj" (mkV3 1 1 1))))
                   (Some (mkShape identityPose (Mesh "b.obj" (mkV3 1 1 1))))
                   None [])] [] (Some "base_link"))) "base_joint"
             (mkNode "base_joint" AnchorNode m4id []) initialPState
             (mkLink "base_link" None
                (Some (mkShape identityPose (Mesh "a.obj" (mkV3 1 1 1))))
                (Some (mkShape identityPose (Mesh "b.obj" (mkV3 1 1 1))))
                None [])
             (mkShape identityPose (Mesh "a.obj" (mkV3 1 1 1)))
             (mkShape identityPose (Mesh "b.obj" (mkV3 1 1 1)))
             "a.obj" "b.obj" (mkV3 1 1 1) (mkV3 1 1 1) (0, mkV3 0 0 0, m3zero));
      try reflexivity; discriminate.
Defined.
